(** * fileUploadChallenge: UID tracker, stream cipher and HTTP handlers

    A shallow embedding of the Go packages [uid], [cryptography] and of the
    request handlers of [main], followed by the properties proved about
    them.  Go's standard library ([strconv], [encoding/hex], [io],
    [crypto/cipher], [net/http]) is embedded as far as the handlers use it,
    following its documented behaviour; the AES block function itself is a
    parameter. *)

From Stdlib Require Import ZArith List String Ascii Bool Lia DecimalString.
From Stdlib Require Import DecimalFacts DecimalPos DecimalN.
From Stdlib.Strings Require Import Byte.
From stdpp Require Import base gmap strings list.

Open Scope Z_scope.

(* ===================================================================== *)
(** * Part I: the embedding                                               *)
(* ===================================================================== *)

(** ** Values shared by the packages *)

Abbreviation bytes := (list byte).

(** Go's [error] values.  Sentinel errors are constructors; [errors.New]
    and [fmt.Errorf] produce an [errorString]. *)
Inductive error : Type :=
| EOF
| ErrUnexpectedEOF
| ErrShortWrite
| errInvalidWrite
| ErrNoProgress
| ErrClosedPipe
| ErrSyntax
| ErrRange
| ErrLength
| InvalidByteError (c : ascii)
| KeySizeError (k : nat)
| NumError (Func Num : string) (Err : error)
| errorString (s : string).

(** A call either returns or panics. *)
Inductive outcome (A : Type) : Type :=
| Returned (a : A)
| Panic (msg : string).
Arguments Returned {A} a.
Arguments Panic {A} msg.

(** [strconv.FormatUint(n, 10)], also the [%d] verb on a [uint64]. *)
Definition FormatUint (n : Z) : string :=
  NilZero.string_of_uint (N.to_uint (Z.to_N n)).

(** [strconv.Itoa] on a non-negative [int]. *)
Definition Itoa (n : nat) : string :=
  NilZero.string_of_uint (Nat.to_uint n).

(** ** Rendering of error values *)

(** A hexadecimal digit, with upper-case or lower-case letters. *)
Definition hex_digit (upper : bool) (n : N) : ascii :=
  if (n <? 10)%N then ascii_of_N (48 + n)
  else if upper then ascii_of_N (55 + n) else ascii_of_N (87 + n).

(** The two hexadecimal digits of a byte value. *)
Definition hex2 (upper : bool) (n : N) : string :=
  String (hex_digit upper (n / 16))
         (String (hex_digit upper (n mod 16)) EmptyString).

Definition quote_char : ascii := ascii_of_N 34.
Definition backslash : ascii := ascii_of_N 92.

(** [strconv.Quote] on a string of ASCII bytes: the quote and the
    backslash are escaped, control characters become [\a \b \f \n \r \t \v]
    or [\xNN].  Bytes above [0x7f] are copied as they are (Go escapes those
    that form no printable rune). *)
Fixpoint quote_body (s : string) : string :=
  match s with
  | EmptyString => EmptyString
  | String c rest =>
      let n := N_of_ascii c in
      let esc (e : string) := (String backslash e ++ quote_body rest)%string in
      if (n =? 34)%N then esc (String quote_char EmptyString)
      else if (n =? 92)%N then esc (String backslash EmptyString)
      else if (n =? 7)%N then esc "a"%string
      else if (n =? 8)%N then esc "b"%string
      else if (n =? 12)%N then esc "f"%string
      else if (n =? 10)%N then esc "n"%string
      else if (n =? 13)%N then esc "r"%string
      else if (n =? 9)%N then esc "t"%string
      else if (n =? 11)%N then esc "v"%string
      else if ((n <? 32) || (n =? 127))%N then esc ("x" ++ hex2 false n)%string
      else String c (quote_body rest)
  end.

Definition Quote (s : string) : string :=
  String quote_char (quote_body s ++ String quote_char EmptyString).

(** The [Error()] method.  ([InvalidByteError] prints its byte with the
    verb [%#U]; the quoted character that the verb appends is rendered for
    printable ASCII only.) *)
Fixpoint Error (e : error) : string :=
  match e with
  | EOF => "EOF"
  | ErrUnexpectedEOF => "unexpected EOF"
  | ErrShortWrite => "short write"
  | errInvalidWrite => "invalid write result"
  | ErrNoProgress => "multiple Read calls return no data or error"
  | ErrClosedPipe => "io: read/write on closed pipe"
  | ErrSyntax => "invalid syntax"
  | ErrRange => "value out of range"
  | ErrLength => "encoding/hex: odd length hex string"
  | InvalidByteError c =>
      "encoding/hex: invalid byte: U+00" ++ hex2 true (N_of_ascii c) ++
      (if ((32 <=? N_of_ascii c) && (N_of_ascii c <=? 126))%N
       then " '" ++ String c "'" else "")
  | KeySizeError k => "crypto/aes: invalid key size " ++ Itoa k
  | NumError Func Num Err =>
      "strconv." ++ Func ++ ": parsing " ++ Quote Num ++ ": " ++ Error Err
  | errorString s => s
  end.

(** ** Package [uid] *)

Module uid.

(** The values of a [uint64]. *)
Definition uint64_modulus : Z := 2 ^ 64.

(** The process-wide generator of [math/rand/v2]: [stream i] is what the
    [i]-th call draws, [drawn] counts the calls made so far. *)
Record Rand : Type := { stream : nat -> Z; drawn : nat }.

(** [rand.Uint64()] *)
Definition Uint64 (g : Rand) : Z * Rand :=
  (stream g (drawn g) mod uint64_modulus,
   {| stream := stream g; drawn := S (drawn g) |}).

(** [context.Context], as far as [select] on [ctx.Done()] observes it. *)
Record Context : Type := { Done : bool }.

(** [type UidTracker struct { uids map[uint64]bool; mu sync.Mutex }].
    Every method holds [mu] from its first to its last statement, so each
    of them is one atomic transition of [uids]. *)
Record UidTracker : Type := { uids : gmap Z bool }.

(** The message built by [fmt.Errorf] in [AddUid]. *)
Definition already_used (uid recommended : Z) : error :=
  errorString ("UID " ++ FormatUint uid ++
               " already used in the system, please retry with " ++
               FormatUint recommended).

(** The inner [for] loop of [AddUid]: draw until a value without an entry
    in [uids] comes up.  [fuel] bounds the number of iterations; [None]
    means the loop is still running after [fuel] draws. *)
Fixpoint recommend (fuel : nat) (m : gmap Z bool) (g : Rand)
  : option (Z * Rand) :=
  match fuel with
  | O => None
  | S fuel' =>
      let (recommended, g') := Uint64 g in
      match m !! recommended with
      | None => Some (recommended, g')
      | Some _ => recommend fuel' m g'
      end
  end.

(** [func (t *UidTracker) AddUid(uid uint64) (uint64, error)] *)
Definition AddUid (fuel : nat) (t : UidTracker) (g : Rand) (uid : Z)
  : option ((Z * option error) * UidTracker * Rand) :=
  match uids t !! uid with
  | Some _ =>
      match recommend fuel (uids t) g with
      | Some (recommended, g') =>
          Some ((0, Some (already_used uid recommended)), t, g')
      | None => None
      end
  | None =>
      Some ((uid, None), {| uids := <[uid := true]> (uids t) |}, g)
  end.

(** [func (t *UidTracker) Init(initialElems []uint64)] *)
Definition Init (t : UidTracker) (initialElems : list Z) : UidTracker :=
  {| uids := fold_left (fun m elem => <[elem := true]> m) initialElems ∅ |}.

(** [func (t *UidTracker) GenerateAndAdd(ctx context.Context) (uint64, error)] *)
Definition GenerateAndAdd (t : UidTracker) (g : Rand) (ctx : Context)
  : (Z * option error) * UidTracker * Rand :=
  if Done ctx then
    ((0, Some (errorString "UID generation timed out.")), t, g)
  else
    let (try, g') := Uint64 g in
    match uids t !! try with
    | None => ((try, None), {| uids := <[try := true]> (uids t) |}, g')
    | Some _ => ((0, None), t, g')
    end.

(** [func (t *UidTracker) Contains(elem uint64) bool] *)
Definition Contains (t : UidTracker) (elem : Z) : bool :=
  match uids t !! elem with
  | Some _ => true
  | None => false
  end.

(** A generator that draws the values of [l] in order, then [d] forever. *)
Definition draws (l : list Z) (d : Z) : Rand :=
  {| stream := fun i => nth i l d; drawn := 0 |}.

End uid.

(** ** Package [encoding/hex] *)

Module hex.

(** [reverseHexTable]: the value of a hexadecimal digit, [None] where the
    table holds [0xff]. *)
Definition fromHexChar (c : ascii) : option N :=
  let n := N_of_ascii c in
  if ((48 <=? n) && (n <=? 57))%N then Some (n - 48)%N
  else if ((97 <=? n) && (n <=? 102))%N then Some (n - 97 + 10)%N
  else if ((65 <=? n) && (n <=? 70))%N then Some (n - 65 + 10)%N
  else None.

(** [(a << 4) | b] as a byte. *)
Definition join_nibbles (a b : N) : byte :=
  match Byte.of_N (N.lor (N.shiftl a 4) b) with
  | Some x => x
  | None => x00
  end.

(** [hex.DecodeString]: the bytes decoded before the first error, and the
    error.  The loop takes two characters at a time; a last single
    character is an [InvalidByteError] when it is no digit and [ErrLength]
    otherwise. *)
Fixpoint DecodeString (s : string) : bytes * option error :=
  match s with
  | EmptyString => ([], None)
  | String p EmptyString =>
      match fromHexChar p with
      | None => ([], Some (InvalidByteError p))
      | Some _ => ([], Some ErrLength)
      end
  | String p (String q rest) =>
      match fromHexChar p with
      | None => ([], Some (InvalidByteError p))
      | Some a =>
          match fromHexChar q with
          | None => ([], Some (InvalidByteError q))
          | Some b =>
              let (dst, err) := DecodeString rest in
              (join_nibbles a b :: dst, err)
          end
      end
  end.

End hex.

(** ** Package [io] *)

Module io.

(** [io.Writer]: [Write] returns the number of bytes taken and an error. *)
Class Writer (W : Type) : Type :=
  { Write : W -> bytes -> (nat * option error) * W }.

(** [io.Reader]: [Read r n] is a call with a buffer of [n] bytes; it
    returns the bytes read (at most [n]) and an error.  [unread] bounds the
    number of calls that can still return without an error; the loops
    below take [S (unread r)] iterations as their budget.  A reader whose
    [unread] goes down with every call that returns no error never uses
    it up; for any other reader the loop stops with [ErrNoProgress]. *)
Class Reader (R : Type) : Type :=
  { Read : R -> nat -> (bytes * option error) * R;
    unread : R -> nat }.

(** A source that hands out its data in the pieces [chunks], each call
    taking at most one piece, and then reports [final] ([EOF] for a
    source that ends normally). *)
Record ChunkReader : Type := { chunks : list bytes; final : error }.

Definition ChunkReader_Read (r : ChunkReader) (n : nat)
  : (bytes * option error) * ChunkReader :=
  match chunks r with
  | [] => (([], Some (final r)), r)
  | c :: cs =>
      if (length c <=? n)%nat
      then ((c, None), {| chunks := cs; final := final r |})
      else ((take n c, None), {| chunks := drop n c :: cs; final := final r |})
  end.

Definition ChunkReader_unread (r : ChunkReader) : nat :=
  list_sum (map (fun c => S (length c)) (chunks r)).

#[export] Instance ChunkReader_Reader : Reader ChunkReader :=
  {| Read := ChunkReader_Read; unread := ChunkReader_unread |}.

(** [bytes.Buffer] as a writer: [Write] appends and never fails. *)
Record Buffer : Type := { Bytes : bytes }.

#[export] Instance Buffer_Writer : Writer Buffer :=
  {| Write := fun b p => ((length p, None), {| Bytes := Bytes b ++ p |}) |}.

(** The loop of [io.ReadAtLeast]: [got] holds the [n] bytes read so far
    into a buffer of [size] bytes. *)
Fixpoint readAtLeast {R} `{Reader R} (fuel : nat) (r : R) (got : bytes)
  (size min : nat) : (bytes * option error) * R :=
  if (length got <? min)%nat then
    match fuel with
    | O => ((got, Some ErrNoProgress), r)
    | S fuel' =>
        let '((p, err), r') := Read r (size - length got)%nat in
        match err with
        | None => readAtLeast fuel' r' (got ++ p) size min
        | Some e => ((got ++ p, Some e), r')
        end
    end
  else ((got, None), r).

(** [io.ReadFull(r, buf)] with [buf := make([]byte, size)]: the buffer
    after the call (zero where nothing was read) and the error. *)
Definition ReadFull {R} `{Reader R} (r : R) (size : nat)
  : (bytes * option error) * R :=
  let '((got, err), r') := readAtLeast (S (unread r)) r [] size size in
  let n := length got in
  let err :=
    if (size <=? n)%nat then None
    else match err with
         | Some EOF => if (0 <? n)%nat then Some ErrUnexpectedEOF else err
         | _ => err
         end in
  ((take size (got ++ repeat x00 size), err), r').

(** The size of the buffer [io.Copy] allocates. *)
Definition copy_buffer_size : nat := 32 * 1024.

(** The loop of [io.copyBuffer]. *)
Fixpoint copyBuffer {W R} `{Writer W} `{Reader R} (fuel : nat)
  (dst : W) (src : R) : option error * W * R :=
  match fuel with
  | O => (Some ErrNoProgress, dst, src)
  | S fuel' =>
      let '((p, er), src') := Read src copy_buffer_size in
      let nr := length p in
      let '(brk, dst') :=
        if (0 <? nr)%nat then
          let '((nw, ew), dst') := Write dst p in
          let '(nw, ew) :=
            if (nr <? nw)%nat
            then (0%nat, match ew with
                         | None => Some errInvalidWrite
                         | Some _ => ew
                         end)
            else (nw, ew) in
          match ew with
          | Some e => (Some (Some e), dst')
          | None =>
              if (nr =? nw)%nat then (None, dst')
              else (Some (Some ErrShortWrite), dst')
          end
        else (None, dst) in
      match brk with
      | Some err => (err, dst', src')
      | None =>
          match er with
          | Some EOF => (None, dst', src')
          | Some e => (Some e, dst', src')
          | None => copyBuffer fuel' dst' src'
          end
      end
  end.

(** [io.Copy(dst, src)] *)
Definition Copy {W R} `{Writer W} `{Reader R} (dst : W) (src : R)
  : option error * W * R :=
  copyBuffer (S (unread src)) dst src.

End io.

(** ** Package [crypto/cipher] *)

Module cipher.
Import io.

(** [cipher.Block]: the block size and the block function of a keyed
    cipher. *)
Record Block : Type := { BlockSize : nat; Encrypt : bytes -> bytes }.

(** Bitwise exclusive or of two bytes. *)
Definition byte_xor (a b : byte) : byte :=
  let '(a0, (a1, (a2, (a3, (a4, (a5, (a6, a7))))))) := Byte.to_bits a in
  let '(b0, (b1, (b2, (b3, (b4, (b5, (b6, b7))))))) := Byte.to_bits b in
  Byte.of_bits (xorb a0 b0, (xorb a1 b1, (xorb a2 b2, (xorb a3 b3,
               (xorb a4 b4, (xorb a5 b5, (xorb a6 b6, xorb a7 b7))))))).

(** [b++] on a byte, wrapping at 256. *)
Definition byte_succ (b : byte) : byte :=
  match Byte.of_N ((Byte.to_N b + 1) mod 256)%N with
  | Some x => x
  | None => x00
  end.

Definition is_zero (b : byte) : bool :=
  match b with x00 => true | _ => false end.

(** The counter increment of CTR mode, from the last byte upwards:
    [for i := len(ctr)-1; i >= 0; i-- { ctr[i]++; if ctr[i] != 0 { break } }],
    here on the reversed counter. *)
Fixpoint increment_rev (l : bytes) : bytes :=
  match l with
  | [] => []
  | b :: l' =>
      let b' := byte_succ b in
      if is_zero b' then b' :: increment_rev l' else b' :: l'
  end.

Definition increment (counter : bytes) : bytes :=
  rev (increment_rev (rev counter)).

(** One block of key stream: the [BlockSize] bytes that
    [b.Encrypt(dst, ctr)] leaves in [dst]. *)
Definition encrypt_block (b : Block) (counter : bytes) : bytes :=
  map (fun j => nth j (Encrypt b counter) x00) (seq 0 (BlockSize b)).

(** The state of a CTR stream: the block cipher, the counter of the next
    block and the key stream bytes produced but not yet used. *)
Record ctr : Type := { b : Block; counter : bytes; out : bytes }.

(** [cipher.NewCTR(block, iv)] *)
Definition NewCTR (block : Block) (iv : bytes) : outcome ctr :=
  if (length iv =? BlockSize block)%nat
  then Returned {| b := block; counter := iv; out := [] |}
  else Panic "cipher.NewCTR: IV length must equal block size".

(** [refill]: when no key stream byte is left, encrypt the counter into
    [out] and increment it. *)
Definition refill (x : ctr) : ctr :=
  match out x with
  | [] => {| b := b x;
             counter := increment (counter x);
             out := encrypt_block (b x) (counter x) |}
  | _ :: _ => x
  end.

(** The next key stream byte.  (A cipher of block size 0, for which a
    refill yields nothing, does not exist; the stream then stays as it
    is.) *)
Definition next_key_byte (x : ctr) : byte * ctr :=
  let x := refill x in
  match out x with
  | k :: ks => (k, {| b := b x; counter := counter x; out := ks |})
  | [] => (x00, x)
  end.

(** [XORKeyStream(dst, src)]: [dst] and the stream afterwards. *)
Fixpoint XORKeyStream (x : ctr) (src : bytes) : bytes * ctr :=
  match src with
  | [] => ([], x)
  | s :: src' =>
      let (k, x') := next_key_byte x in
      let (dst', x'') := XORKeyStream x' src' in
      (byte_xor s k :: dst', x'')
  end.

(** [cipher.StreamWriter{S, W}] *)
Record StreamWriter (W : Type) : Type := { SW_S : ctr; SW_W : W }.
Arguments SW_S {W} _.
Arguments SW_W {W} _.

#[export] Instance StreamWriter_Writer {W} `{Writer W}
  : Writer (StreamWriter W) :=
  {| Write := fun w src =>
       let (c, S') := XORKeyStream (SW_S w) src in
       let '((n, err), W') := Write (SW_W w) c in
       let err := match err with
                  | None => if (n =? length src)%nat then None
                            else Some ErrShortWrite
                  | Some _ => err
                  end in
       ((n, err), {| SW_S := S'; SW_W := W' |}) |}.

(** [cipher.StreamReader{S, R}] *)
Record StreamReader (R : Type) : Type := { SR_S : ctr; SR_R : R }.
Arguments SR_S {R} _.
Arguments SR_R {R} _.

#[export] Instance StreamReader_Reader {R} `{Reader R}
  : Reader (StreamReader R) :=
  {| Read := fun r n =>
       let '((p, err), R') := Read (SR_R r) n in
       let (dst, S') := XORKeyStream (SR_S r) p in
       ((dst, err), {| SR_S := S'; SR_R := R' |});
     unread := fun r => unread (SR_R r) |}.

End cipher.

(** ** Package [crypto/aes] *)

Module aes.

Definition BlockSize : nat := 16.

(** [aes.NewCipher(key)]: the key length is checked, then the block
    function [aes_encrypt key] of the AES implementation is returned. *)
Definition NewCipher (aes_encrypt : bytes -> bytes -> bytes) (key : bytes)
  : option cipher.Block * option error :=
  let k := length key in
  if ((k =? 16) || (k =? 24) || (k =? 32))%nat
  then (Some {| cipher.BlockSize := BlockSize;
                cipher.Encrypt := aes_encrypt key |}, None)
  else (None, Some (KeySizeError k)).

End aes.

(** ** Package [cryptography] *)

Module cryptography.
Import io cipher.

Section StreamCipher.

(** The AES block function of [crypto/aes], by key. *)
Variable aes_encrypt : bytes -> bytes -> bytes.

(** [type StreamCipher struct { block cipher.Block }]; [block] is nil
    until [Init] has run. *)
Record StreamCipher : Type := { block : option Block }.

Definition nil_dereference : string :=
  "runtime error: invalid memory address or nil pointer dereference".

(** [func (c *StreamCipher) EncryptStream(reader io.Reader, writer io.Writer) error].
    [rand_Reader] is [crypto/rand.Reader].  The result is the error and
    the writer after the call. *)
Definition EncryptStream {G R W} `{Reader G} `{Reader R} `{Writer W}
  (c : StreamCipher) (rand_Reader : G) (reader : R) (writer : W)
  : outcome (option error * W) :=
  let '((iv, err), _) := ReadFull rand_Reader aes.BlockSize in
  match err with
  | Some e => Returned (Some e, writer)
  | None =>
      match block c with
      | None => Panic nil_dereference
      | Some blk =>
          match NewCTR blk iv with
          | Panic msg => Panic msg
          | Returned stream =>
              let '((_, err), writer) := Write writer iv in
              match err with
              | Some e => Returned (Some e, writer)
              | None =>
                  let sw := {| SW_S := stream; SW_W := writer |} in
                  let '(err, sw, _) := Copy sw reader in
                  match err with
                  | Some e => Returned (Some e, SW_W sw)
                  | None => Returned (None, SW_W sw)
                  end
              end
          end
      end
  end.

(** [func (c *StreamCipher) DecryptStream(reader io.Reader, writer io.Writer) error] *)
Definition DecryptStream {R W} `{Reader R} `{Writer W}
  (c : StreamCipher) (reader : R) (writer : W)
  : outcome (option error * W) :=
  let '((iv, err), reader) := ReadFull reader aes.BlockSize in
  match err with
  | Some e =>
      Returned (Some (errorString ("unable to read iv: " ++ Error e)), writer)
  | None =>
      match block c with
      | None => Panic nil_dereference
      | Some blk =>
          match NewCTR blk iv with
          | Panic msg => Panic msg
          | Returned stream =>
              let sr := {| SR_S := stream; SR_R := reader |} in
              let '(err, writer, _) := Copy writer sr in
              match err with
              | Some e =>
                  Returned
                    (Some (errorString
                             ("error while decrypting stream: " ++ Error e)),
                     writer)
              | None => Returned (None, writer)
              end
          end
      end
  end.

(** [func (c *StreamCipher) Init(hexKey string)] *)
Definition Init (c : StreamCipher) (hexKey : string) : outcome StreamCipher :=
  let (key, _) := hex.DecodeString hexKey in
  let (block, err) := aes.NewCipher aes_encrypt key in
  match err with
  | Some e => Panic (Error e)
  | None => Returned {| block := block |}
  end.

End StreamCipher.

End cryptography.

(** ** Package [strconv] *)

Module strconv.

Definition maxUint64 : Z := 2 ^ 64 - 1.

(** The digit loop of [ParseUint(s, 10, 64)]: [n] is the value so far.
    Every byte that is no decimal digit is a syntax error; [n >= cutoff]
    and a wrapped or too large [n*10 + d] are range errors. *)
Fixpoint parse_digits (s : string) (n : Z) : Z * option error :=
  match s with
  | EmptyString => (n, None)
  | String c rest =>
      let k := Z.of_N (N_of_ascii c) in
      if (48 <=? k) && (k <=? 57) then
        let d := k - 48 in
        if maxUint64 / 10 + 1 <=? n then (maxUint64, Some ErrRange)
        else
          let n10 := (n * 10) mod 2 ^ 64 in
          let n1 := (n10 + d) mod 2 ^ 64 in
          if (n1 <? n10) || (maxUint64 <? n1) then (maxUint64, Some ErrRange)
          else parse_digits rest n1
      else (0, Some ErrSyntax)
  end.

(** [strconv.ParseUint(s, 10, 64)] *)
Definition ParseUint (s : string) : Z * option error :=
  match s with
  | EmptyString => (0, Some (NumError "ParseUint" s ErrSyntax))
  | _ =>
      match parse_digits s 0 with
      | (n, Some e) => (n, Some (NumError "ParseUint" s e))
      | (n, None) => (n, None)
      end
  end.

(** [strconv.ParseInt(s, 10, 64)] *)
Definition ParseInt (s0 : string) : Z * option error :=
  match s0 with
  | EmptyString => (0, Some (NumError "ParseInt" s0 ErrSyntax))
  | String c rest =>
      let k := N_of_ascii c in
      let neg := (k =? 45)%N in
      let s := if ((k =? 43) || (k =? 45))%N then rest else s0 in
      let (un, err) := ParseUint s in
      let cutoff := 2 ^ 63 in
      match err with
      | Some (NumError _ _ ErrRange) | None =>
          if negb neg && (cutoff <=? un)
          then (cutoff - 1, Some (NumError "ParseInt" s0 ErrRange))
          else if neg && (cutoff <? un)
          then (- cutoff, Some (NumError "ParseInt" s0 ErrRange))
          else (if neg then - un else un, None)
      | Some (NumError _ _ e) => (0, Some (NumError "ParseInt" s0 e))
      | Some e => (0, Some e)
      end
  end.

End strconv.

(** ** Package [net/http] *)

Module http.
Import io.

(** [http.Header] and [url.Values]: a key has a list of values. *)
Abbreviation Header := (gmap string (list string)).

(** [Header.Get], [Values.Get]: the first value of the key, or the empty
    string. *)
Definition Get (h : Header) (key : string) : string :=
  match h !! key with
  | Some (v :: _) => v
  | _ => EmptyString
  end.

(** [Header.Set] and [Header.Del], on canonical keys. *)
Definition Set_ (h : Header) (key value : string) : Header :=
  <[key := [value]]> h.

Definition Del (h : Header) (key : string) : Header := delete key h.

(** What a handler reads of [*http.Request]: the header and the parsed
    query [r.URL.Query()]. *)
Record Request : Type := { Header_ : Header; Query : Header }.

(** [http.ResponseWriter]: the header map of the handler, the status line
    and header as sent ([None] until the first [WriteHeader] or [Write]),
    and the body written. *)
Record ResponseWriter : Type :=
  { header : Header; sent : option (Z * Header); body : bytes }.

(** [w.WriteHeader(code)]; a second call changes nothing. *)
Definition WriteHeader (w : ResponseWriter) (code : Z) : ResponseWriter :=
  match sent w with
  | Some _ => w
  | None =>
      {| header := header w; sent := Some (code, header w); body := body w |}
  end.

Definition StatusOK : Z := 200.
Definition StatusBadRequest : Z := 400.
Definition StatusNotFound : Z := 404.
Definition StatusConflict : Z := 409.
Definition StatusPreconditionFailed : Z := 412.
Definition StatusInternalServerError : Z := 500.

(** [w.Write(p)]: sends the header with status 200 if none was sent. *)
#[export] Instance ResponseWriter_Writer : Writer ResponseWriter :=
  {| Write := fun w p =>
       let w := WriteHeader w StatusOK in
       ((length p, None),
        {| header := header w; sent := sent w; body := body w ++ p |}) |}.

Definition newline : string := String (ascii_of_N 10) EmptyString.

(** [fmt.Fprint(w, s)] for a formatted string [s]. *)
Definition Fprint (w : ResponseWriter) (s : string) : ResponseWriter :=
  snd (Write w (list_byte_of_string s)).

(** [http.Error(w, error, code)] *)
Definition Error_ (w : ResponseWriter) (error : string) (code : Z)
  : ResponseWriter :=
  let h := Del (header w) "Content-Length" in
  let h := Set_ h "Content-Type" "text/plain; charset=utf-8" in
  let h := Set_ h "X-Content-Type-Options" "nosniff" in
  let w := {| header := h; sent := sent w; body := body w |} in
  let w := WriteHeader w code in
  Fprint w (error ++ newline).

(** The status the client sees. *)
Definition status (w : ResponseWriter) : option Z := fst <$> sent w.

(** The header the client sees. *)
Definition sent_header (w : ResponseWriter) : option Header := snd <$> sent w.

End http.

(** ** Package [minio] *)

Module minio.

(** [minio.ObjectInfo] *)
Record ObjectInfo : Type := { UserMetadata : gmap string string }.

(** [*minio.Object]: what [Stat] returns and the stored bytes as the
    reads deliver them. *)
Record Object : Type :=
  { Stat : ObjectInfo + error; content : io.ChunkReader }.

(** [*minio.Client], as far as fetching goes: [GetObject bucket name]. *)
Record Client : Type := { GetObject : string -> string -> Object + error }.

End minio.

(** ** Package [main] *)

Module main.
Import io http.

Definition BUCKET_NAME : string := "challenge-taurus".

Definition index_out_of_range : string :=
  "runtime error: index out of range [0] with length 0".

(** The result of [getUniqueObjectName] with the writer, the tracker and
    the generator after the call. *)
Record named : Type :=
  { objectName : string; errOccurred : bool;
    named_w : ResponseWriter; named_t : uid.UidTracker; named_g : uid.Rand }.

(** [func getUniqueObjectName(w http.ResponseWriter, r *http.Request) (string, bool)].
    [ctx] is the state of the 15 ms context when [GenerateAndAdd] looks at
    it; [fuel] bounds the loop of [AddUid], and [None] means it is still
    running. *)
Definition getUniqueObjectName (fuel : nat) (w : ResponseWriter) (r : Request)
  (uidTracker : uid.UidTracker) (g : uid.Rand) (ctx : uid.Context)
  : option (outcome named) :=
  match Header_ r !! "Uid" with
  | Some [] => Some (Panic index_out_of_range)
  | Some (uidStr0 :: _) =>
      let (suggestedUid, err) := strconv.ParseUint uidStr0 in
      match err with
      | Some _ =>
          Some (Returned
            {| objectName := "";
               errOccurred := true;
               named_w :=
                 Error_ w
                   "The UID provided in the header cannot be parsed as a uint64."
                   StatusPreconditionFailed;
               named_t := uidTracker; named_g := g |})
      | None =>
          match uid.AddUid fuel uidTracker g suggestedUid with
          | None => None
          | Some ((added, Some e), t, g) =>
              Some (Returned
                {| objectName := ""; errOccurred := true;
                   named_w := Error_ w (Error e) StatusConflict;
                   named_t := t; named_g := g |})
          | Some ((added, None), t, g) =>
              Some (Returned
                {| objectName := FormatUint added; errOccurred := false;
                   named_w := w; named_t := t; named_g := g |})
          end
      end
  | None =>
      match uid.GenerateAndAdd uidTracker g ctx with
      | ((added, Some e), t, g) =>
          Some (Returned
            {| objectName := ""; errOccurred := true;
               named_w := Error_ w (Error e) StatusInternalServerError;
               named_t := t; named_g := g |})
      | ((added, None), t, g) =>
          Some (Returned
            {| objectName := FormatUint added; errOccurred := false;
               named_w := w; named_t := t; named_g := g |})
      end
  end.

Section Handlers.

(** The three goroutines of [uploadHandler] and the wait for them: reading
    the multipart body, encrypting, and the upload.  They start after the
    header checks; what they do to the response is left open here. *)
Variable pipeline : ResponseWriter -> Request -> string -> Z -> ResponseWriter.

(** [uploadHandler], the function it returns. *)
Definition uploadHandler (fuel : nat) (w : ResponseWriter) (r : Request)
  (uidTracker : uid.UidTracker) (g : uid.Rand) (ctx : uid.Context)
  : option (outcome (ResponseWriter * uid.UidTracker * uid.Rand)) :=
  match Header_ r !! "File-Size" with
  | None | Some [] => Some (Panic index_out_of_range)
  | Some (size0 :: _) =>
      let (fileSize, err) := strconv.ParseInt size0 in
      match err with
      | Some _ =>
          Some (Returned
            (Error_ w "File-Size in header should be the file size in bytes"
                    StatusPreconditionFailed,
             uidTracker, g))
      | None =>
          let minioDataSize := fileSize + Z.of_nat aes.BlockSize in
          match getUniqueObjectName fuel w r uidTracker g ctx with
          | None => None
          | Some (Panic msg) => Some (Panic msg)
          | Some (Returned res) =>
              if errOccurred res
              then Some (Returned (named_w res, named_t res, named_g res))
              else
                let w := pipeline (named_w res) r (objectName res)
                                  minioDataSize in
                Some (Returned
                  (Fprint w ("File successfully uploaded and encrypted with UID "
                             ++ objectName res ++ " " ++ newline),
                   named_t res, named_g res))
          end
      end
  end.

End Handlers.

(** The calls of [minioClient.GetObject] a handler made: bucket and
    object name. *)
Abbreviation client_calls := (list (string * string)).

(** [fetchAndDecryptHandler], the function it returns. *)
Definition fetchAndDecryptHandler (minioClient : minio.Client)
  (cipher : cryptography.StreamCipher) (uidTracker : uid.UidTracker)
  (w : ResponseWriter) (r : Request)
  : outcome (ResponseWriter * client_calls) :=
  let uidStr := Get (Query r) "uid" in
  if String.eqb uidStr "" then
    Returned (Error_ w "Missing UID" StatusBadRequest, [])
  else
    let (uid, err) := strconv.ParseUint uidStr in
    match err with
    | Some e => Returned (Error_ w (Error e) StatusBadRequest, [])
    | None =>
        if negb (uid.Contains uidTracker uid) then
          Returned
            (Error_ w
               "The MinIO bucket does not contain any object with the provided UID"
               StatusNotFound, [])
        else
          let objectName := uidStr in
          let calls := [(BUCKET_NAME, objectName)] in
          match minio.GetObject minioClient BUCKET_NAME objectName with
          | inr _ =>
              Returned (Error_ w "Unable to fetch file from MinIO"
                               StatusInternalServerError, calls)
          | inl object =>
              match minio.Stat object with
              | inr _ =>
                  Returned (Error_ w "Failed to get object metadata" 408, calls)
              | inl objectInfo =>
                  match minio.UserMetadata objectInfo !! "Filename" with
                  | None =>
                      Returned (Error_ w "Filename not found in metadata" 408,
                                calls)
                  | Some filename =>
                      let h := Set_ (header w) "Content-Type"
                                    "application/octet-stream" in
                      let h := Set_ h "Content-Disposition"
                                    ("attachment; filename=" ++
                                     String quote_char filename ++
                                     String quote_char "") in
                      let w := {| header := h; sent := sent w;
                                  body := body w |} in
                      match cryptography.DecryptStream
                              cipher (minio.content object) w with
                      | Panic msg => Panic msg
                      | Returned (Some _, w) =>
                          Returned (Error_ w "Error during decryption"
                                           StatusInternalServerError, calls)
                      | Returned (None, w) =>
                          Returned
                            (Fprint w ("File " ++ objectName ++
                                       " streamed and decrypted successfully."
                                       ++ newline), calls)
                      end
                  end
              end
          end
    end.

End main.

(** ** Counter mode in the specification's words *)

(** The number a byte stands for. *)
Definition byte_value (x : byte) : Z := Z.of_N (Byte.to_N x).

Definition byte_of_value (v : Z) : byte :=
  match Byte.of_N (Z.to_N v) with
  | Some x => x
  | None => x00
  end.

(** A byte string read as a big-endian number, and the [n]-byte
    big-endian form of a number. *)
Definition be_value (l : bytes) : Z :=
  fold_left (fun acc x => acc * 256 + byte_value x) l 0.

Fixpoint be_bytes (n : nat) (v : Z) : bytes :=
  match n with
  | O => []
  | S n' => be_bytes n' (v / 256) ++ [byte_of_value (v mod 256)]
  end.

(** Following the specification's words: block [i] of the counter-mode
    key stream under [iv] is the encryption of the counter [iv + i], the IV
    read as a big-endian number and the sum taken modulo the counter's
    width; encryption is the exclusive or of the plaintext with the first
    bytes of [E(iv) || E(iv + 1) || ...]. *)
Definition counter_block (iv : bytes) (i : nat) : bytes :=
  be_bytes (length iv)
           ((be_value iv + Z.of_nat i) mod 256 ^ Z.of_nat (length iv)).

Definition ctr_keystream (blk : cipher.Block) (iv : bytes) (n : nat) : bytes :=
  take n (concat (map (fun i => cipher.encrypt_block blk (counter_block iv i))
                      (seq 0 n))).

Definition ctr_xor (blk : cipher.Block) (iv : bytes) (P : bytes) : bytes :=
  zip_with cipher.byte_xor P (ctr_keystream blk iv (length P)).

(** The blocks a stream obtains by [n] refills in a row, starting from
    [counter]. *)
Fixpoint keystream_blocks (blk : cipher.Block) (counter : bytes) (n : nat)
  : bytes :=
  match n with
  | O => []
  | S n' =>
      cipher.encrypt_block blk counter ++
      keystream_blocks blk (cipher.increment counter) n'
  end.

(** The next [n] key stream bytes of a stream, drawn as [XORKeyStream]
    draws them, and the stream afterwards. *)
Fixpoint key_bytes (x : cipher.ctr) (n : nat) : bytes * cipher.ctr :=
  match n with
  | O => ([], x)
  | S n' =>
      let (k, x') := cipher.next_key_byte x in
      let (ks, x'') := key_bytes x' n' in
      (k :: ks, x'')
  end.

(** ** Responses while a body is streamed *)

Section Responses.
Import http.

(** A response to which a handler has done nothing but [Write]: it keeps
    the header map [h], and the header is either still unsent or was sent
    with status 200 and that map. *)
Definition streaming (h : Header) (w : ResponseWriter) : Prop :=
  header w = h /\ (sent w = None \/ sent w = Some (StatusOK, h)).

(** The header map of the fetch handler once the file name is known. *)
Definition download_header (h : Header) (filename : string) : Header :=
  Set_ (Set_ h "Content-Type" "application/octet-stream")
       "Content-Disposition"
       ("attachment; filename=" ++ String quote_char filename ++
        String quote_char "").

End Responses.

(** ** Sample values *)

Section Samples.
Import io cipher cryptography http main.

(** A stand-in block function for closed instances: the block reversed,
    each byte xored with the first key byte. *)
Definition toy_block (key blk : bytes) : bytes :=
  map (fun x => byte_xor x (nth 0 key x00)) (rev blk).

(** The key of the repository's tests. *)
Definition test_key : string :=
  "6368616e676520746869732070617373776f726420746f206120736563726574".

Definition test_cipher : StreamCipher :=
  {| block := Some {| BlockSize := 16;
                      Encrypt :=
                        toy_block (fst (hex.DecodeString test_key)) |} |}.

Definition test_rand : ChunkReader :=
  {| chunks := [repeat x2a 7; repeat x17 20]; final := EOF |}.

Definition test_rand_after : ChunkReader :=
  {| chunks := [repeat x17 11]; final := EOF |}.

Definition test_iv : bytes := repeat x2a 7 ++ repeat x17 9.

Definition test_plaintext : ChunkReader :=
  {| chunks := [list_byte_of_string "te"; []; list_byte_of_string "st"];
     final := EOF |}.

Definition fresh_response : ResponseWriter :=
  {| header := ∅; sent := None; body := [] |}.

Definition fetch_7 : Request :=
  {| Header_ := ∅; Query := {[ "uid" := ["7"] ]} |}.

Definition tracker_7 : uid.UidTracker := uid.Init {| uid.uids := ∅ |} [7].

Definition report_txt : minio.ObjectInfo :=
  {| minio.UserMetadata := {[ "Filename" := "report.txt" ]} |}.

(** A client whose object 7 cannot be [Stat]ed. *)
Definition client_Stat_fails : minio.Client :=
  {| minio.GetObject := fun _ _ =>
       inl {| minio.Stat := inr (errorString "connection reset");
              minio.content := {| chunks := []; final := EOF |} |} |}.

(** A client whose object 7 holds an IV and three more bytes. *)
Definition client_stored : minio.Client :=
  {| minio.GetObject := fun _ _ =>
       inl {| minio.Stat := inl report_txt;
              minio.content :=
                {| chunks := [repeat x01 10; repeat x02 9]; final := EOF |} |} |}.

(** A client whose object 7 breaks off after the IV and three bytes. *)
Definition client_read_fails : minio.Client :=
  {| minio.GetObject := fun _ _ =>
       inl {| minio.Stat := inl report_txt;
              minio.content :=
                {| chunks := [repeat x01 16; repeat x02 3];
                   final := ErrClosedPipe |} |} |}.

Definition upload_no_size : Request := {| Header_ := ∅; Query := ∅ |}.

Definition upload_bad_size : Request :=
  {| Header_ := {[ "File-Size" := ["12 bytes"] ]}; Query := ∅ |}.

End Samples.

(** ** Definitions for further properties *)

(** The value of a digit sequence read after the digits that gave [acc]. *)
Fixpoint uint_acc (d : Decimal.uint) (acc : Z) : Z :=
  match d with
  | Decimal.Nil => acc
  | Decimal.D0 d => uint_acc d (acc * 10)
  | Decimal.D1 d => uint_acc d (acc * 10 + 1)
  | Decimal.D2 d => uint_acc d (acc * 10 + 2)
  | Decimal.D3 d => uint_acc d (acc * 10 + 3)
  | Decimal.D4 d => uint_acc d (acc * 10 + 4)
  | Decimal.D5 d => uint_acc d (acc * 10 + 5)
  | Decimal.D6 d => uint_acc d (acc * 10 + 6)
  | Decimal.D7 d => uint_acc d (acc * 10 + 7)
  | Decimal.D8 d => uint_acc d (acc * 10 + 8)
  | Decimal.D9 d => uint_acc d (acc * 10 + 9)
  end.

(** A hexadecimal digit, in either case. *)
Definition is_hex_digit (ch : ascii) : bool :=
  match hex.fromHexChar ch with
  | Some _ => true
  | None => false
  end.

(** The error with which a copy from a source ends: none when the source
    ends with [EOF], the source's error otherwise. *)
Definition final_error (e : error) : option error :=
  match e with
  | EOF => None
  | _ => Some e
  end.

(** The block function inside [test_cipher]. *)
Definition test_block : cipher.Block :=
  {| cipher.BlockSize := 16;
     cipher.Encrypt := toy_block (fst (hex.DecodeString test_key)) |}.

(** ** The rest of [api.go] *)

Module api.

(** What the channel of [client.ListObjects] delivers for an object: the
    fields [Key] and [Err] of its [minio.ObjectInfo]. *)
Record ListedObject : Type := { Key : string; Err : option error }.

(** [func fetchUidsFromMinio(tracker *uid.UidTracker, client *minio.Client) error],
    with [listing] what [client.ListObjects] delivers: the tracker after
    the call and the error returned. *)
Definition fetchUidsFromMinio (tracker : uid.UidTracker)
  (listing : list ListedObject) : uid.UidTracker * option error :=
  let currentObjectIds :=
    fold_left
      (fun ids obj =>
         let (newUid, err) := strconv.ParseUint (Key obj) in
         match err with
         | None => ids ++ [newUid]
         | Some _ => ids
         end)
      listing [] in
  (uid.Init tracker currentObjectIds, None).

(** The value of an [int64] expression computed in [Z]. *)
Definition wrap_int64 (z : Z) : Z := (z + 2 ^ 63) mod 2 ^ 64 - 2 ^ 63.

(** [float64(n)] for an [int64]: [n] rounded to 53 significant bits, to
    nearest, ties to even.  The result is an integer again. *)
Definition float64_of_int64 (n : Z) : Z :=
  let a := Z.abs n in
  let shift := Z.log2 a + 1 - 53 in
  if shift <=? 0 then n
  else
    let q := a / 2 ^ shift in
    let r := a mod 2 ^ shift in
    let half := 2 ^ (shift - 1) in
    let q := if (half <? r) || ((r =? half) && Z.odd q) then q + 1 else q in
    Z.sgn n * (q * 2 ^ shift).

(** [func getMaxNbrRunSeconds(nbrUploadedBytes int64) time.Duration], in
    nanoseconds.  The [float64] quotient by [minRateBytes], a power of two,
    is exact, and so are [math.Ceil] of it, the conversion back to [int64]
    and [int64(math.Pow10(9))]; the product is an [int64] product. *)
Definition getMaxNbrRunSeconds (nbrUploadedBytes : Z) : Z :=
  let minRateBytes := 1024 * 1024 * 1 in
  let safetySeconds := 10 in
  let ceil := - ((- float64_of_int64 nbrUploadedBytes) / minRateBytes) in
  wrap_int64 ((safetySeconds + ceil) * 10 ^ 9).

End api.

(* ===================================================================== *)
(** * Part II: properties                                                 *)
(* ===================================================================== *)

(** ** The UID tracker *)

Section UidTracker_facts.
Import uid.

Implicit Types (t : UidTracker) (g : Rand) (m : gmap Z bool).

Lemma Contains_true t x : Contains t x = true <-> is_Some (uids t !! x).
Proof.
  unfold Contains. destruct (uids t !! x) as [b|]; split; intros H.
  - eauto.
  - reflexivity.
  - discriminate.
  - destruct H as [b H]. discriminate.
Qed.

Lemma Contains_false t x : Contains t x = false <-> uids t !! x = None.
Proof.
  unfold Contains. destruct (uids t !! x); split; congruence.
Qed.

Lemma Uint64_range g : 0 <= fst (Uint64 g) < uint64_modulus.
Proof.
  unfold Uint64, uint64_modulus. simpl. apply Z.mod_pos_bound. lia.
Qed.

(** What a finished [recommend] loop has found: the value drawn at some
    position below [fuel], absent from the map, every draw counted. *)
Lemma recommend_Some fuel : forall m g v g',
  recommend fuel m g = Some (v, g') ->
  m !! v = None /\ 0 <= v < uint64_modulus /\
  exists k, (k < fuel)%nat /\
            v = stream g (drawn g + k)%nat mod uint64_modulus /\
            g' = {| stream := stream g; drawn := S (drawn g + k) |}.
Proof.
  induction fuel as [|fuel IH]; intros m g v g' H; simpl in H.
  - discriminate.
  - destruct (m !! (stream g (drawn g) mod uint64_modulus)) as [b|] eqn:E.
    + apply IH in H. destruct H as (Hv & Hr & k & Hk & Hvk & Hg).
      split; [exact Hv|]. split; [exact Hr|].
      exists (S k). simpl in Hvk, Hg.
      replace (drawn g + S k)%nat with (S (drawn g + k)) by lia.
      split; [lia|]. split; assumption.
    + injection H as <- <-. split; [exact E|].
      split; [apply (Uint64_range g)|].
      exists 0%nat. rewrite Nat.add_0_r. split; [lia|]. split; reflexivity.
Qed.

(** The loop stops as soon as the generator offers a free value. *)
Lemma recommend_complete fuel : forall m g k,
  m !! (stream g (drawn g + k)%nat mod uint64_modulus) = None ->
  (k < fuel)%nat -> is_Some (recommend fuel m g).
Proof.
  induction fuel as [|fuel IH]; intros m g k Hfree Hk; [lia|].
  simpl. destruct (m !! (stream g (drawn g) mod uint64_modulus)) as [b|] eqn:E.
  - destruct k as [|k].
    + rewrite Nat.add_0_r in Hfree. congruence.
    + apply (IH m _ k); [|lia]. simpl.
      replace (S (drawn g + k)) with (drawn g + S k)%nat by lia.
      exact Hfree.
  - eauto.
Qed.

(** While every draw so far is taken, the loop keeps running. *)
Lemma recommend_None fuel : forall m g,
  (forall k, (k < fuel)%nat ->
     is_Some (m !! (stream g (drawn g + k)%nat mod uint64_modulus))) ->
  recommend fuel m g = None.
Proof.
  induction fuel as [|fuel IH]; intros m g Htaken; [reflexivity|].
  simpl. destruct (Htaken 0%nat ltac:(lia)) as [b Hb].
  rewrite Nat.add_0_r in Hb. rewrite Hb.
  apply IH. intros k Hk. simpl.
  replace (S (drawn g + k)) with (drawn g + S k)%nat by lia.
  apply Htaken. lia.
Qed.

Lemma Init_lookup (l : list Z) : forall m x,
  is_Some (fold_left (fun m elem => <[elem := true]> m) l m !! x) <->
  x ∈ l \/ is_Some (m !! x).
Proof.
  induction l as [|a l IH]; intros m x; simpl.
  - rewrite elem_of_nil. tauto.
  - rewrite IH, elem_of_cons, lookup_insert_is_Some. 
    destruct (decide (a = x)) as [->|Hne]; intuition congruence.
Qed.

(** [GenerateAndAdd] with a live context and a draw that is free: the draw
    is reserved and returned. *)
Lemma GenerateAndAdd_fresh t g ctx :
  Done ctx = false ->
  Contains t (fst (Uint64 g)) = false ->
  exists t',
    GenerateAndAdd t g ctx = ((fst (Uint64 g), None), t', snd (Uint64 g)) /\
    Contains t' (fst (Uint64 g)) = true.
Proof.
  intros Hlive Hfree. apply Contains_false in Hfree.
  unfold GenerateAndAdd. rewrite Hlive. simpl in *. rewrite Hfree.
  eexists. split; [reflexivity|].
  apply Contains_true. simpl. rewrite lookup_insert_eq. eauto.
Qed.

(** [GenerateAndAdd] with a live context and a draw that is taken: the
    call falls out of the [select] and ends in [return 0, nil]. *)
Lemma GenerateAndAdd_collision t g ctx :
  Done ctx = false ->
  Contains t (fst (Uint64 g)) = true ->
  GenerateAndAdd t g ctx = ((0, None), t, snd (Uint64 g)).
Proof.
  intros Hlive Htaken. apply Contains_true in Htaken as [b Hb].
  unfold GenerateAndAdd. rewrite Hlive. simpl in *. rewrite Hb. reflexivity.
Qed.

(** C1 (the code departs from the claim): with the tracker holding exactly
    UID 5, a live context and a generator whose next draw is 5,
    [GenerateAndAdd] returns UID 0 with a nil error, reserves nothing, and
    [Contains] on the returned value is false. *)
Example GenerateAndAdd_collision_returns_zero_nil :
  let t := Init {| uids := ∅ |} [5] in
  let g := draws [5] 7 in
  GenerateAndAdd t g {| Done := false |} = ((0, None), t, snd (Uint64 g)) /\
  Contains t 0 = false.
Proof.
  cbv zeta. split.
  - apply GenerateAndAdd_collision; [reflexivity|].
    apply Contains_true. vm_compute. eauto.
  - apply Contains_false. vm_compute. reflexivity.
Qed.

(** C2: [AddUid] on a reserved candidate, whenever its loop ends, returns 0
    and the conflict error naming a recommended UID that has no entry, and
    leaves the tracker as it was; it does end once the generator offers a
    free value.  On a free candidate it makes no draw, reserves the
    candidate and returns it with a nil error. *)
Theorem AddUid_reserved_or_free t g uid :
  (Contains t uid = true ->
     (forall fuel r, AddUid fuel t g uid = Some r ->
        exists recommended g',
          r = ((0, Some (already_used uid recommended)), t, g') /\
          Contains t recommended = false) /\
     (forall k fuel,
        Contains t (stream g (drawn g + k)%nat mod uint64_modulus) = false ->
        (k < fuel)%nat -> is_Some (AddUid fuel t g uid))) /\
  (Contains t uid = false ->
     forall fuel, exists t',
       AddUid fuel t g uid = Some ((uid, None), t', g) /\
       Contains t' uid = true /\
       forall x, Contains t' x = (bool_decide (x = uid) || Contains t x)%bool).
Proof.
  split.
  - intros Hin. apply Contains_true in Hin as [b Hb]. split.
    + intros fuel r H. unfold AddUid in H. rewrite Hb in H.
      destruct (recommend fuel (uids t) g) as [[recommended g']|] eqn:E;
        [|discriminate].
      injection H as <-. exists recommended, g'. split; [reflexivity|].
      apply Contains_false. apply recommend_Some in E. tauto.
    + intros k fuel Hfree Hk. apply Contains_false in Hfree.
      unfold AddUid. rewrite Hb.
      destruct (recommend_complete fuel (uids t) g k Hfree Hk) as [[v g'] ->].
      eauto.
  - intros Hfree fuel. apply Contains_false in Hfree.
    unfold AddUid. rewrite Hfree. eexists. split; [reflexivity|]. split.
    + apply Contains_true. simpl. rewrite lookup_insert_eq. eauto.
    + intros x. unfold Contains at 1. simpl.
      destruct (decide (x = uid)) as [->|Hne].
      * rewrite lookup_insert_eq, bool_decide_eq_true_2; reflexivity.
      * rewrite lookup_insert_ne by congruence.
        rewrite bool_decide_eq_false_2 by exact Hne. reflexivity.
Qed.

(** C2 at a tracker holding 1 and 2: candidate 1 meets draws 2 and 9 and
    is turned down with 9 recommended; candidate 3 is reserved. *)
Lemma AddUid_reserved_or_free_witness :
  (exists recommended g',
     AddUid 2 (Init {| uids := ∅ |} [1; 2]) (draws [2; 9] 0) 1 =
       Some ((0, Some (already_used 1 recommended)),
             Init {| uids := ∅ |} [1; 2], g') /\
     Contains (Init {| uids := ∅ |} [1; 2]) recommended = false) /\
  (exists t',
     AddUid 0 (Init {| uids := ∅ |} [1; 2]) (draws [2; 9] 0) 3 =
       Some ((3, None), t', draws [2; 9] 0) /\
     Contains t' 3 = true).
Proof.
  pose proof (AddUid_reserved_or_free
                (Init {| uids := ∅ |} [1; 2]) (draws [2; 9] 0) 1) as [Hres _].
  pose proof (AddUid_reserved_or_free
                (Init {| uids := ∅ |} [1; 2]) (draws [2; 9] 0) 3) as [_ Hfree].
  split.
  - destruct (Hres ltac:(vm_compute; reflexivity)) as [Hpartial Htotal].
    destruct (Htotal 1%nat 2%nat ltac:(vm_compute; reflexivity) ltac:(lia))
      as [r Hr].
    destruct (Hpartial _ _ Hr) as (recommended & g' & -> & Hrec).
    exists recommended, g'. split; [exact Hr | exact Hrec].
  - destruct (Hfree ltac:(vm_compute; reflexivity) 0%nat) as (t' & H1 & H2 & _).
    exists t'. split; [exact H1 | exact H2].
Defined.

(** C6: with a context that is already done, [GenerateAndAdd] returns the
    timeout error without drawing, and the tracker is the one it was given:
    [Contains] answers as before for every UID. *)
Theorem GenerateAndAdd_expired t g ctx :
  Done ctx = true ->
  exists t' g',
    GenerateAndAdd t g ctx =
      ((0, Some (errorString "UID generation timed out.")), t', g') /\
    t' = t /\ g' = g /\ forall x, Contains t' x = Contains t x.
Proof.
  intros Hdone. exists t, g. unfold GenerateAndAdd. rewrite Hdone.
  repeat split.
Qed.

Lemma GenerateAndAdd_expired_witness :
  exists t' g',
    GenerateAndAdd (Init {| uids := ∅ |} [32; 48]) (draws [4] 0)
                   {| Done := true |} =
      ((0, Some (errorString "UID generation timed out.")), t', g') /\
    t' = Init {| uids := ∅ |} [32; 48] /\ g' = draws [4] 0 /\
    forall x, Contains t' x = Contains (Init {| uids := ∅ |} [32; 48]) x.
Proof.
  apply (GenerateAndAdd_expired (Init {| uids := ∅ |} [32; 48]) (draws [4] 0)
           {| Done := true |}).
  reflexivity.
Defined.

(** C7: after [Init t S] the tracker's key set is the set of elements of
    [S], whatever [t] held: [Contains] is true exactly on the members of
    [S]. *)
Theorem Init_Contains t (S : list Z) :
  dom (uids (Init t S)) = list_to_set S /\
  forall x, Contains (Init t S) x = bool_decide (x ∈ S).
Proof.
  assert (Hmem : forall x, is_Some (uids (Init t S) !! x) <-> x ∈ S).
  { intros x. unfold Init. simpl. rewrite Init_lookup, lookup_empty.
    split; [intros [H|[b H]]; [exact H | discriminate] | tauto]. }
  split.
  - apply set_eq. intros x.
    rewrite elem_of_dom, elem_of_list_to_set. apply Hmem.
  - intros x. destruct (decide (x ∈ S)) as [Hin|Hout].
    + rewrite bool_decide_eq_true_2 by exact Hin.
      apply Contains_true, Hmem, Hin.
    + rewrite bool_decide_eq_false_2 by exact Hout.
      apply Contains_false. apply eq_None_not_Some. rewrite Hmem. exact Hout.
Qed.

(** C10: [AddUid] on a reserved candidate can only return when some 64-bit
    value is free, and no constant bounds its draws: for every [N] there
    are a tracker, a generator and a reserved candidate on which the loop
    is still running after [N] draws and returns at draw [N + 1]. *)
Theorem AddUid_terminates_only_if_not_full :
  (forall fuel t g uid r,
     Contains t uid = true -> AddUid fuel t g uid = Some r ->
     exists v, 0 <= v < uint64_modulus /\ Contains t v = false) /\
  (forall N : nat, exists t g uid,
     Contains t uid = true /\
     (forall fuel, (fuel <= N)%nat -> AddUid fuel t g uid = None) /\
     exists r, AddUid (S N) t g uid = Some r /\ drawn (snd r) = S N).
Proof.
  split.
  - intros fuel t g uid r Hin H. apply Contains_true in Hin as [b Hb].
    unfold AddUid in H. rewrite Hb in H.
    destruct (recommend fuel (uids t) g) as [[v g']|] eqn:E; [|discriminate].
    apply recommend_Some in E as (Hv & Hr & _).
    exists v. split; [exact Hr|]. apply Contains_false, Hv.
  - intros N.
    set (t := {| uids := {[ 0 := true ]} |}).
    set (g := {| stream := fun i => if (i <? N)%nat then 0 else 1;
                 drawn := 0 |}).
    assert (Hin : uids t !! 0 = Some true) by apply lookup_singleton_eq.
    exists t, g, 0. split; [apply Contains_true; eauto|]. split.
    + intros fuel Hfuel. unfold AddUid. rewrite Hin.
      rewrite recommend_None; [reflexivity|].
      intros k Hk. simpl.
      destruct (Nat.ltb_spec k N) as [_|Hge]; [|lia].
      exists true. exact Hin.
    + assert (Hfree : uids t !! (stream g (drawn g + N)%nat mod uint64_modulus)
                      = None).
      { simpl. destruct (Nat.ltb_spec N N) as [Hlt|_]; [lia|].
        apply lookup_singleton_ne. discriminate. }
      destruct (recommend_complete (S N) (uids t) g N Hfree ltac:(lia))
        as [[v g'] E].
      unfold AddUid. rewrite Hin, E. eexists. split; [reflexivity|]. simpl.
      apply recommend_Some in E as (Hv & _ & k & Hk & Hvk & ->). simpl.
      f_equal. destruct (Nat.eq_dec k N) as [->|Hne]; [reflexivity|].
      exfalso. rewrite Hvk in Hv. simpl in Hv.
      destruct (Nat.ltb_spec k N) as [_|Hge]; [|lia].
      change (0 mod uint64_modulus) with 0 in Hv.
      rewrite lookup_singleton_eq in Hv. discriminate.
Qed.

(** C10 at the tracker holding 1 and 2 with draws 2, 2, 9: the call for
    candidate 1 returns after three draws, and 9 is a free 64-bit value. *)
Lemma AddUid_terminates_only_if_not_full_witness :
  exists v, 0 <= v < uint64_modulus /\
            Contains (Init {| uids := ∅ |} [1; 2]) v = false.
Proof.
  apply (proj1 AddUid_terminates_only_if_not_full 3%nat
           (Init {| uids := ∅ |} [1; 2]) (draws [2; 2; 9] 0) 1
           ((0, Some (already_used 1 9)), Init {| uids := ∅ |} [1; 2],
            {| stream := stream (draws [2; 2; 9] 0); drawn := 3 |})).
  - vm_compute. reflexivity.
  - vm_compute. reflexivity.
Defined.

End UidTracker_facts.

(** ** Readers, writers and the copy loop *)

Section io_facts.
Import io.

Lemma copy_buffer_size_pos : (0 < copy_buffer_size)%nat.
Proof. unfold copy_buffer_size. lia. Qed.

(** One call of [Read] on a [ChunkReader] with a non-empty buffer: either
    it hands out a prefix of the remaining data, of at most [n] bytes, and
    has strictly less left to do, or nothing is left and it reports
    [final]. *)
Lemma ChunkReader_Read_cases (r : ChunkReader) (n : nat) p er r' :
  (0 < n)%nat ->
  Read r n = ((p, er), r') ->
  match er with
  | None =>
      concat (chunks r) = p ++ concat (chunks r') /\
      (length p <= n)%nat /\
      (unread r' < unread r)%nat /\
      final r' = final r
  | Some e => chunks r = [] /\ p = [] /\ e = final r /\ r' = r
  end.
Proof.
  intros Hn. simpl. unfold ChunkReader_Read, ChunkReader_unread.
  destruct r as [[|c cs] fin]; simpl.
  - intros [= <- <- <-]. auto.
  - destruct (Nat.leb_spec (length c) n) as [Hle|Hgt]; intros [= <- <- <-];
      simpl.
    + repeat split; [exact Hle | lia].
    + rewrite app_assoc, take_drop. rewrite length_take, length_drop.
      repeat split; lia.
Qed.

(** The loop of [ReadAtLeast] on a [ChunkReader] that still holds enough
    data: it returns exactly the bytes that were missing and leaves the
    rest. *)
Lemma readAtLeast_ChunkReader fuel : forall (r : ChunkReader) got size,
  (unread r < fuel)%nat ->
  (length got <= size)%nat ->
  (size <= length got + length (concat (chunks r)))%nat ->
  exists r',
    readAtLeast fuel r got size size =
      ((got ++ take (size - length got) (concat (chunks r)), None), r') /\
    concat (chunks r') = drop (size - length got) (concat (chunks r)) /\
    final r' = final r.
Proof.
  induction fuel as [|fuel IH]; intros r got size Hfuel Hgot Henough; [lia|].
  cbn [readAtLeast].
  destruct (Nat.ltb_spec (length got) size) as [Hlt|Hge].
  - destruct (Read r (size - length got)) as [[p er] r1] eqn:E.
    apply ChunkReader_Read_cases in E; [|lia].
    destruct er as [e|].
    + destruct E as (Hnil & _). rewrite Hnil in Henough. simpl in Henough. lia.
    + destruct E as (Hcat & Hp & Hun & Hfin).
      destruct (IH r1 (got ++ p) size) as (r' & Hloop & Hrest & Hfin').
      * lia.
      * rewrite length_app. lia.
      * rewrite length_app. rewrite Hcat, length_app in Henough. lia.
      * exists r'. rewrite Hloop, Hrest, Hfin', Hcat. rewrite length_app.
        split; [|split; [|exact Hfin]].
        -- rewrite take_app, (take_ge p) by lia. rewrite <- app_assoc.
           replace (size - (length got + length p))%nat
             with (size - length got - length p)%nat by lia.
           reflexivity.
        -- rewrite drop_app_ge by lia.
           replace (size - (length got + length p))%nat
             with (size - length got - length p)%nat by lia.
           reflexivity.
  - exists r. replace (size - length got)%nat with 0%nat by lia.
    rewrite take_0, drop_0, app_nil_r. auto.
Qed.

(** [ReadFull] on a [ChunkReader] whose data starts with the [size] bytes
    [head]. *)
Lemma ReadFull_ChunkReader (r : ChunkReader) (head rest : bytes) size :
  concat (chunks r) = head ++ rest ->
  length head = size ->
  exists r',
    ReadFull r size = ((head, None), r') /\
    concat (chunks r') = rest /\ final r' = final r.
Proof.
  intros Hcat <-. unfold ReadFull.
  destruct (readAtLeast_ChunkReader (S (unread r)) r [] (length head))
    as (r' & Hloop & Hrest & Hfin).
  - lia.
  - simpl. lia.
  - rewrite Hcat, length_app. simpl. lia.
  - rewrite Hloop. simpl in Hrest |- *. rewrite Nat.sub_0_r in Hrest |- *.
    rewrite Hcat in Hrest |- *.
    rewrite drop_app_length in Hrest. rewrite take_app_length.
    rewrite Nat.leb_refl, take_app_length.
    exists r'. auto.
Qed.

(** Whatever the reader, a successful [ReadFull] fills the whole buffer. *)
Lemma ReadFull_length {R} `{Reader R} (r r' : R) size buf err :
  ReadFull r size = ((buf, err), r') -> length buf = size.
Proof.
  unfold ReadFull.
  destruct (readAtLeast (S (unread r)) r [] size size) as [[got e] r1].
  intros [= <- _ _]. rewrite length_take, length_app, repeat_length. lia.
Qed.

End io_facts.

(** ** Counter mode *)

Section cipher_facts.
Import io cipher.

Lemma byte_xor_cancel (a k : byte) : byte_xor (byte_xor a k) k = a.
Proof.
  unfold byte_xor.
  destruct (Byte.to_bits a)
    as (a0 & a1 & a2 & a3 & a4 & a5 & a6 & a7) eqn:Ea.
  destruct (Byte.to_bits k)
    as (k0 & k1 & k2 & k3 & k4 & k5 & k6 & k7) eqn:Ek.
  rewrite Byte.to_bits_of_bits.
  rewrite !xorb_assoc, !xorb_nilpotent, !xorb_false_r.
  rewrite <- Ea. apply Byte.of_bits_to_bits.
Qed.

Lemma XORKeyStream_key_bytes (src : bytes) : forall x,
  XORKeyStream x src =
    (zip_with byte_xor src (fst (key_bytes x (length src))),
     snd (key_bytes x (length src))).
Proof.
  induction src as [|s src IH]; intros x; simpl; [reflexivity|].
  destruct (next_key_byte x) as [k x']. rewrite IH.
  destruct (key_bytes x' (length src)) as [ks x'']. reflexivity.
Qed.

Lemma XORKeyStream_length (src : bytes) : forall x,
  length (fst (XORKeyStream x src)) = length src.
Proof.
  induction src as [|s src IH]; intros x; simpl; [reflexivity|].
  destruct (next_key_byte x) as [k x']. specialize (IH x').
  destruct (XORKeyStream x' src) as [dst x'']. simpl in *. lia.
Qed.

(** Two calls in a row produce what one call on the joined input does. *)
Lemma XORKeyStream_app (p q : bytes) : forall x,
  XORKeyStream x (p ++ q) =
    (fst (XORKeyStream x p) ++ fst (XORKeyStream (snd (XORKeyStream x p)) q),
     snd (XORKeyStream (snd (XORKeyStream x p)) q)).
Proof.
  induction p as [|s p IH]; intros x; simpl.
  - destruct (XORKeyStream x q); reflexivity.
  - destruct (next_key_byte x) as [k x']. rewrite IH.
    destruct (XORKeyStream x' p) as [dst x'']. reflexivity.
Qed.

(** A stream in the same state undoes what it did. *)
Lemma XORKeyStream_inverse (p : bytes) : forall x,
  XORKeyStream x (fst (XORKeyStream x p)) = (p, snd (XORKeyStream x p)).
Proof.
  induction p as [|s p IH]; intros x; simpl; [reflexivity|].
  destruct (next_key_byte x) as [k x'] eqn:Ek. specialize (IH x').
  destruct (XORKeyStream x' p) as [dst x''] eqn:Ep. simpl in *.
  rewrite Ek, IH, byte_xor_cancel. reflexivity.
Qed.

Lemma encrypt_block_length blk counter :
  length (encrypt_block blk counter) = BlockSize blk.
Proof. unfold encrypt_block. rewrite length_map, length_seq. reflexivity. Qed.

Lemma keystream_blocks_length blk : forall n counter,
  length (keystream_blocks blk counter n) = (n * BlockSize blk)%nat.
Proof.
  induction n as [|n IH]; intros counter; simpl; [reflexivity|].
  rewrite length_app, encrypt_block_length, IH. reflexivity.
Qed.

(** Asking for more blocks does not change the bytes already there. *)
Lemma keystream_blocks_take blk : forall m m' j counter,
  (0 < BlockSize blk)%nat -> (j <= m)%nat -> (j <= m')%nat ->
  take j (keystream_blocks blk counter m) =
  take j (keystream_blocks blk counter m').
Proof.
  induction m as [|m IH]; intros m' j counter Hbs Hm Hm'.
  - replace j with 0%nat by lia. rewrite !take_0. reflexivity.
  - destruct m' as [|m'].
    + replace j with 0%nat by lia. rewrite !take_0. reflexivity.
    + simpl. rewrite !take_app. f_equal.
      rewrite encrypt_block_length. apply IH; lia.
Qed.

(** The bytes a stream draws are its unused bytes followed by the
    encrypted counter blocks. *)
Lemma key_bytes_blocks blk : forall n counter unused,
  (0 < BlockSize blk)%nat ->
  fst (key_bytes {| b := blk; counter := counter; out := unused |} n) =
  take n (unused ++ keystream_blocks blk counter n).
Proof.
  induction n as [|n IH]; intros counter unused Hbs; [reflexivity|].
  cbn [key_bytes]. unfold next_key_byte, refill. cbn [out b cipher.counter].
  destruct unused as [|k ks].
  - destruct (encrypt_block blk counter) as [|k ks] eqn:E.
    + apply (f_equal length) in E. rewrite encrypt_block_length in E.
      simpl in E. lia.
    + cbn [out b cipher.counter]. specialize (IH (increment counter) ks Hbs).
      destruct (key_bytes _ n) as [ks' x'']. simpl in *. rewrite E.
      simpl. rewrite IH. reflexivity.
  - cbn [out b cipher.counter]. specialize (IH counter ks Hbs).
    destruct (key_bytes _ n) as [ks' x'']. cbn [fst] in IH |- *. rewrite IH.
    rewrite <- app_comm_cons, firstn_cons. f_equal.
    rewrite 2 take_app. f_equal.
    apply (keystream_blocks_take blk n (S n)); [exact Hbs | lia | lia].
Qed.

End cipher_facts.

Section counter_facts.
Import io cipher.

Lemma byte_value_range x : 0 <= byte_value x < 256.
Proof.
  unfold byte_value. pose proof (Byte.to_N_bounded x). lia.
Qed.

Lemma byte_of_value_value x : byte_of_value (byte_value x) = x.
Proof.
  unfold byte_of_value, byte_value. rewrite N2Z.id, Byte.of_to_N. reflexivity.
Qed.

Lemma byte_value_of_value v :
  0 <= v < 256 -> byte_value (byte_of_value v) = v.
Proof.
  intros Hv. unfold byte_of_value, byte_value.
  destruct (Byte.of_N (Z.to_N v)) as [x|] eqn:E.
  - apply Byte.to_of_N in E. rewrite E. lia.
  - apply Byte.of_N_None_iff in E. lia.
Qed.

Lemma byte_succ_value x : byte_value (byte_succ x) = (byte_value x + 1) mod 256.
Proof.
  pose proof (byte_value_range x) as Hx.
  assert (Hm : 0 <= (byte_value x + 1) mod 256 < 256)
    by (apply Z.mod_pos_bound; lia).
  rewrite <- (byte_value_of_value _ Hm). f_equal.
  unfold byte_succ, byte_of_value, byte_value.
  replace (Z.to_N ((Z.of_N (Byte.to_N x) + 1) mod 256))
    with ((Byte.to_N x + 1) mod 256)%N; [reflexivity|].
  apply N2Z.inj. rewrite Z2N.id by (unfold byte_value in Hm; lia).
  rewrite N2Z.inj_mod, N2Z.inj_add. reflexivity.
Qed.

Lemma is_zero_value x : is_zero x = true <-> byte_value x = 0.
Proof.
  split.
  - destruct x; simpl; intros H; try discriminate. reflexivity.
  - intros H. rewrite <- (byte_of_value_value x), H. reflexivity.
Qed.

Lemma be_value_snoc l x : be_value (l ++ [x]) = be_value l * 256 + byte_value x.
Proof. unfold be_value. rewrite fold_left_app. reflexivity. Qed.

Lemma be_value_range l : 0 <= be_value l < 256 ^ Z.of_nat (length l).
Proof.
  induction l as [|x l IH] using rev_ind.
  - simpl. unfold be_value. simpl. lia.
  - rewrite be_value_snoc, length_app, Nat2Z.inj_add. simpl length.
    rewrite Z.pow_add_r by lia. change (256 ^ Z.of_nat 1) with 256.
    pose proof (byte_value_range x). nia.
Qed.

Lemma length_be_bytes n : forall v, length (be_bytes n v) = n.
Proof.
  induction n as [|n IH]; intros v; simpl; [reflexivity|].
  rewrite length_app, IH. simpl. lia.
Qed.

Lemma be_bytes_value l : be_bytes (length l) (be_value l) = l.
Proof.
  induction l as [|x l IH] using rev_ind; [reflexivity|].
  rewrite length_app. simpl length. rewrite Nat.add_1_r. cbn [be_bytes].
  rewrite be_value_snoc. pose proof (byte_value_range x) as Hx.
  rewrite Z.div_add_l, Z.div_small, Z.add_0_r by lia.
  rewrite Z.add_comm, Z.mod_add, Z.mod_small by lia.
  rewrite IH, byte_of_value_value. reflexivity.
Qed.

Lemma be_value_bytes n : forall v,
  0 <= v < 256 ^ Z.of_nat n -> be_value (be_bytes n v) = v.
Proof.
  induction n as [|n IH]; intros v Hv.
  - simpl in *. unfold be_value. simpl. lia.
  - cbn [be_bytes]. rewrite be_value_snoc.
    rewrite Nat2Z.inj_succ, Z.pow_succ_r in Hv by lia.
    rewrite IH.
    + rewrite byte_value_of_value by (apply Z.mod_pos_bound; lia).
      pose proof (Z.div_mod v 256 ltac:(lia)). lia.
    + split; [apply Z.div_pos; lia|].
      apply Z.div_lt_upper_bound; lia.
Qed.

Lemma increment_snoc l x :
  increment (l ++ [x]) =
  (if is_zero (byte_succ x) then increment l else l) ++ [byte_succ x].
Proof.
  unfold increment. rewrite rev_app_distr. simpl.
  destruct (is_zero (byte_succ x)); simpl; [reflexivity|].
  rewrite rev_involutive. reflexivity.
Qed.

Lemma length_increment l : length (increment l) = length l.
Proof.
  induction l as [|x l IH] using rev_ind; [reflexivity|].
  rewrite increment_snoc. destruct (is_zero (byte_succ x));
    rewrite !length_app; simpl; lia.
Qed.

(** The byte-wise increment with carry adds one to the big-endian number,
    modulo the width of the counter. *)
Lemma be_value_increment l :
  be_value (increment l) = (be_value l + 1) mod 256 ^ Z.of_nat (length l).
Proof.
  induction l as [|x l IH] using rev_ind; [reflexivity|].
  rewrite increment_snoc, length_app, Nat2Z.inj_add. simpl length.
  rewrite Z.pow_add_r by lia. change (256 ^ Z.of_nat 1) with 256.
  pose proof (byte_value_range x) as Hx.
  pose proof (be_value_range l) as Hl.
  pose proof (byte_succ_value x) as Hs.
  destruct (is_zero (byte_succ x)) eqn:Ez; rewrite !be_value_snoc.
  - apply is_zero_value in Ez. rewrite Ez in *.
    assert (Hx255 : byte_value x = 255).
    { destruct (Z.eq_dec (byte_value x) 255) as [|Hne]; [assumption|].
      rewrite Z.mod_small in Hs by lia. lia. }
    rewrite IH, Hx255.
    replace (be_value l * 256 + 255 + 1) with ((be_value l + 1) * 256) by lia.
    rewrite Z.mul_mod_distr_r by lia. lia.
  - assert (Hne : byte_value (byte_succ x) <> 0).
    { intros H0. apply is_zero_value in H0. congruence. }
    assert (Hlt : byte_value x + 1 < 256).
    { destruct (Z.eq_dec (byte_value x) 255) as [E|]; [|lia].
      rewrite E in Hs. simpl in Hs. contradiction. }
    rewrite Z.mod_small in Hs by lia. rewrite Hs.
    rewrite Z.mod_small by nia. lia.
Qed.

Lemma counter_block_0 iv : counter_block iv 0 = iv.
Proof.
  unfold counter_block. pose proof (be_value_range iv).
  rewrite Z.add_0_r, Z.mod_small by lia. apply be_bytes_value.
Qed.

Lemma counter_block_S iv i :
  increment (counter_block iv i) = counter_block iv (S i).
Proof.
  unfold counter_block.
  set (M := 256 ^ Z.of_nat (length iv)).
  assert (HM : 0 < M) by (apply Z.pow_pos_nonneg; lia).
  set (v := (be_value iv + Z.of_nat i) mod M).
  assert (Hv : 0 <= v < M) by (apply Z.mod_pos_bound; lia).
  rewrite <- (be_bytes_value (increment (be_bytes (length iv) v))).
  rewrite length_increment, length_be_bytes, be_value_increment.
  rewrite length_be_bytes, be_value_bytes by exact Hv.
  fold M. subst v. rewrite Zplus_mod_idemp_l. do 2 f_equal. lia.
Qed.

Lemma keystream_blocks_counter blk iv : forall n i,
  keystream_blocks blk (counter_block iv i) n =
  concat (map (fun j => encrypt_block blk (counter_block iv j)) (seq i n)).
Proof.
  induction n as [|n IH]; intros i; simpl; [reflexivity|].
  rewrite counter_block_S, IH. reflexivity.
Qed.

(** [XORKeyStream] on a fresh stream computes the specification's
    counter-mode encryption. *)
Lemma XORKeyStream_ctr_xor blk iv (P : bytes) :
  (0 < BlockSize blk)%nat ->
  fst (XORKeyStream {| b := blk; counter := iv; out := [] |} P) =
  ctr_xor blk iv P.
Proof.
  intros Hbs. rewrite XORKeyStream_key_bytes. cbn [fst].
  rewrite key_bytes_blocks by exact Hbs. cbn [app].
  rewrite <- (counter_block_0 iv) at 1. rewrite keystream_blocks_counter.
  reflexivity.
Qed.

Lemma ctr_xor_length blk iv (P : bytes) :
  (0 < BlockSize blk)%nat -> length (ctr_xor blk iv P) = length P.
Proof.
  intros Hbs. rewrite <- XORKeyStream_ctr_xor by exact Hbs.
  apply XORKeyStream_length.
Qed.

End counter_facts.

(** ** The stream cipher *)

Section StreamCipher_facts.
Import io cipher cryptography.

(** One [Write] on a [StreamWriter] over a [bytes.Buffer]. *)
Lemma StreamWriter_Buffer_Write x buf (p : bytes) :
  Write {| SW_S := x; SW_W := {| Bytes := buf |} |} p =
    ((length p, None),
     {| SW_S := snd (XORKeyStream x p);
        SW_W := {| Bytes := buf ++ fst (XORKeyStream x p) |} |}).
Proof.
  pose proof (XORKeyStream_length p x) as Hlen.
  cbn [Write StreamWriter_Writer Buffer_Writer SW_S SW_W Bytes].
  destruct (XORKeyStream x p) as [c x']. cbn [fst snd] in *.
  rewrite Hlen, Nat.eqb_refl. reflexivity.
Qed.

(** [io.Copy] from a source that ends normally into a [StreamWriter] over
    a buffer appends the encryption of all the data. *)
Lemma copyBuffer_StreamWriter fuel : forall (src : ChunkReader) x buf,
  (unread src < fuel)%nat -> final src = EOF ->
  fst (copyBuffer fuel {| SW_S := x; SW_W := {| Bytes := buf |} |} src) =
    (None,
     {| SW_S := snd (XORKeyStream x (concat (chunks src)));
        SW_W := {| Bytes :=
                     buf ++ fst (XORKeyStream x (concat (chunks src))) |} |}).
Proof.
  induction fuel as [|fuel IH]; intros src x buf Hfuel Hfin; [lia|].
  cbn [copyBuffer].
  destruct (Read src copy_buffer_size) as [[p er] src'] eqn:E.
  apply ChunkReader_Read_cases in E; [|apply copy_buffer_size_pos].
  destruct er as [e|].
  - destruct E as (Hnil & -> & -> & ->). rewrite Hfin, Hnil. simpl.
    rewrite app_nil_r. reflexivity.
  - destruct E as (Hcat & _ & Hun & Hfin').
    rewrite Hcat, XORKeyStream_app.
    destruct (Nat.ltb_spec 0 (length p)) as [Hpos|Hzero].
    + rewrite StreamWriter_Buffer_Write.
      rewrite Nat.ltb_irrefl, Nat.eqb_refl.
      rewrite IH by (congruence || lia). cbn [fst snd].
      rewrite app_assoc. reflexivity.
    + assert (p = []) as -> by (apply length_zero_iff_nil; lia).
      rewrite IH by (congruence || lia). reflexivity.
Qed.

(** One [Read] on a [StreamReader] decrypts what its source hands out. *)
Lemma StreamReader_Read {R} `{Reader R} x (r : R) n :
  Read {| SR_S := x; SR_R := r |} n =
    ((fst (XORKeyStream x (fst (fst (Read r n)))), snd (fst (Read r n))),
     {| SR_S := snd (XORKeyStream x (fst (fst (Read r n))));
        SR_R := snd (Read r n) |}).
Proof.
  cbn [Read StreamReader_Reader SR_S SR_R].
  destruct (@Read R _ r n) as [[p er] r']. cbn [fst snd].
  destruct (XORKeyStream x p) as [dst x']. reflexivity.
Qed.

(** [io.Copy] from a [StreamReader] over a source that ends normally into
    a buffer appends the decryption of all the data. *)
Lemma copyBuffer_StreamReader fuel : forall (src : ChunkReader) x buf,
  (unread src < fuel)%nat -> final src = EOF ->
  fst (copyBuffer fuel {| Bytes := buf |} {| SR_S := x; SR_R := src |}) =
    (None, {| Bytes := buf ++ fst (XORKeyStream x (concat (chunks src))) |}).
Proof.
  induction fuel as [|fuel IH]; intros src x buf Hfuel Hfin; [lia|].
  cbn [copyBuffer]. rewrite StreamReader_Read.
  destruct (Read src copy_buffer_size) as [[p er] src'] eqn:E.
  apply ChunkReader_Read_cases in E; [|apply copy_buffer_size_pos].
  cbn [fst snd]. rewrite XORKeyStream_length.
  destruct er as [e|].
  - destruct E as (Hnil & -> & -> & ->). rewrite Hfin, Hnil. simpl.
    rewrite app_nil_r. reflexivity.
  - destruct E as (Hcat & _ & Hun & Hfin').
    rewrite Hcat, XORKeyStream_app. cbn [fst].
    destruct (Nat.ltb_spec 0 (length p)) as [Hpos|Hzero].
    + cbn [Write Buffer_Writer Bytes].
      rewrite XORKeyStream_length, Nat.ltb_irrefl, Nat.eqb_refl.
      rewrite IH by (congruence || lia).
      rewrite app_assoc. reflexivity.
    + assert (p = []) as -> by (apply length_zero_iff_nil; lia).
      rewrite IH by (congruence || lia). reflexivity.
Qed.

Section WithAES.

Variable aes_encrypt : bytes -> bytes -> bytes.

(** [Init] returns exactly when the bytes that [hex.DecodeString] hands
    back, error or not, number 16, 24 or 32; the cipher then holds the
    AES block function under these bytes. *)
Lemma Init_Returned c0 hexKey c :
  Init aes_encrypt c0 hexKey = Returned c <->
  (length (fst (hex.DecodeString hexKey)) = 16%nat \/
   length (fst (hex.DecodeString hexKey)) = 24%nat \/
   length (fst (hex.DecodeString hexKey)) = 32%nat) /\
  c = {| block := Some {| BlockSize := aes.BlockSize;
                          Encrypt :=
                            aes_encrypt (fst (hex.DecodeString hexKey)) |} |}.
Proof.
  unfold Init, aes.NewCipher.
  destruct (hex.DecodeString hexKey) as [key err]. cbn [fst].
  destruct (Nat.eqb_spec (length key) 16) as [H16|H16];
    destruct (Nat.eqb_spec (length key) 24) as [H24|H24];
    destruct (Nat.eqb_spec (length key) 32) as [H32|H32];
    cbn [orb]; split;
    try (intros [= <-]; split; [tauto | reflexivity]);
    try (intros [_ ->]; reflexivity);
    try discriminate.
  intros [[?|[?|?]] _]; contradiction.
Qed.

Lemma Init_block c0 hexKey c :
  Init aes_encrypt c0 hexKey = Returned c ->
  exists blk, block c = Some blk /\ BlockSize blk = aes.BlockSize.
Proof.
  intros H. apply Init_Returned in H as [_ ->]. eauto.
Qed.

(** [EncryptStream] with an initialised cipher, a random source that
    delivers [iv], and a source that ends normally, into a buffer. *)
Lemma EncryptStream_Buffer {G} `{Reader G} (c : StreamCipher) blk
  (rand_Reader g' : G) (iv : bytes) (reader : ChunkReader) (sink : Buffer) :
  block c = Some blk -> BlockSize blk = aes.BlockSize ->
  ReadFull rand_Reader aes.BlockSize = ((iv, None), g') ->
  final reader = EOF ->
  EncryptStream c rand_Reader reader sink =
    Returned (None,
              {| Bytes := Bytes sink ++ iv ++
                          ctr_xor blk iv (concat (chunks reader)) |}).
Proof.
  intros Hblk Hbs Hiv Hfin. unfold EncryptStream. rewrite Hiv, Hblk.
  apply ReadFull_length in Hiv. unfold NewCTR. rewrite Hiv, Hbs, Nat.eqb_refl.
  cbn [Write Buffer_Writer]. unfold Copy.
  pose proof (copyBuffer_StreamWriter (S (unread reader)) reader
                {| b := blk; counter := iv; out := [] |} (Bytes sink ++ iv)
                ltac:(lia) Hfin) as Hcopy.
  destruct (copyBuffer _ _ reader) as [[err sw] src'].
  cbn [fst] in Hcopy. injection Hcopy as -> ->. cbn [SW_W].
  rewrite XORKeyStream_ctr_xor by (rewrite Hbs; unfold aes.BlockSize; lia).
  rewrite <- app_assoc. reflexivity.
Qed.

(** [DecryptStream] with an initialised cipher on a source that holds an
    IV followed by data and ends normally, into a buffer. *)
Lemma DecryptStream_Buffer (c : StreamCipher) blk (stored : ChunkReader)
  (iv data : bytes) (sink : Buffer) :
  block c = Some blk -> BlockSize blk = aes.BlockSize ->
  concat (chunks stored) = iv ++ data -> length iv = aes.BlockSize ->
  final stored = EOF ->
  DecryptStream c stored sink =
    Returned (None,
              {| Bytes := Bytes sink ++
                          fst (XORKeyStream
                                 {| b := blk; counter := iv; out := [] |}
                                 data) |}).
Proof.
  intros Hblk Hbs Hcat Hlen Hfin. unfold DecryptStream.
  destruct (ReadFull_ChunkReader stored iv data aes.BlockSize Hcat Hlen)
    as (rest & -> & Hrest & Hfin').
  rewrite Hblk. unfold NewCTR. rewrite Hlen, Hbs, Nat.eqb_refl. unfold Copy.
  change (unread {| SR_S := {| b := blk; counter := iv; out := [] |};
                    SR_R := rest |}) with (unread rest).
  pose proof (copyBuffer_StreamReader (S (unread rest))
                rest {| b := blk; counter := iv; out := [] |} (Bytes sink)
                (Nat.lt_succ_diag_r _) ltac:(congruence)) as Hcopy.
  destruct sink as [buf]. cbn [Bytes] in *.
  destruct (copyBuffer _ _ _) as [[err w] src'].
  cbn [fst] in Hcopy. injection Hcopy as -> ->. rewrite Hrest. reflexivity.
Qed.

(** C4: with an initialised cipher, [EncryptStream] appends to its sink
    the IV it drew followed by the counter-mode encryption of the whole
    plaintext under that IV: 16 bytes more than the plaintext, the first
    16 of them the IV. *)
Theorem EncryptStream_layout {G} `{Reader G} c0 hexKey (c : StreamCipher)
  (rand_Reader g' : G) (iv : bytes) (reader : ChunkReader) (sink : Buffer) :
  Init aes_encrypt c0 hexKey = Returned c ->
  ReadFull rand_Reader aes.BlockSize = ((iv, None), g') ->
  final reader = EOF ->
  exists blk output,
    block c = Some blk /\
    EncryptStream c rand_Reader reader sink =
      Returned (None, {| Bytes := Bytes sink ++ output |}) /\
    output = iv ++ ctr_xor blk iv (concat (chunks reader)) /\
    length output = (16 + length (concat (chunks reader)))%nat /\
    take 16 output = iv.
Proof.
  intros Hinit Hiv Hfin.
  destruct (Init_block _ _ _ Hinit) as (blk & Hblk & Hbs).
  exists blk, (iv ++ ctr_xor blk iv (concat (chunks reader))).
  pose proof (ReadFull_length _ _ _ _ _ Hiv) as Hlen.
  unfold aes.BlockSize in Hlen.
  split; [exact Hblk|]. split; [|split; [reflexivity|split]].
  - apply (EncryptStream_Buffer c blk rand_Reader g'); assumption.
  - rewrite length_app, ctr_xor_length, Hlen; [reflexivity|].
    rewrite Hbs. unfold aes.BlockSize. lia.
  - rewrite <- Hlen. apply take_app_length.
Qed.

(** C3: what [EncryptStream] writes for a plaintext, handed back in any
    division into pieces to [DecryptStream] under the same cipher,
    decrypts to exactly that plaintext (the empty one included). *)
Theorem DecryptStream_EncryptStream {G} `{Reader G} c0 hexKey
  (c : StreamCipher) (rand_Reader g' : G) (iv : bytes)
  (reader : ChunkReader) :
  Init aes_encrypt c0 hexKey = Returned c ->
  ReadFull rand_Reader aes.BlockSize = ((iv, None), g') ->
  final reader = EOF ->
  exists encrypted,
    EncryptStream c rand_Reader reader {| Bytes := [] |} =
      Returned (None, encrypted) /\
    forall stored : ChunkReader,
      concat (chunks stored) = Bytes encrypted -> final stored = EOF ->
      DecryptStream c stored {| Bytes := [] |} =
        Returned (None, {| Bytes := concat (chunks reader) |}).
Proof.
  intros Hinit Hiv Hfin.
  destruct (Init_block _ _ _ Hinit) as (blk & Hblk & Hbs).
  pose proof (ReadFull_length _ _ _ _ _ Hiv) as Hlen.
  eexists. split.
  - apply (EncryptStream_Buffer c blk rand_Reader g'); eassumption.
  - cbn [Bytes app]. intros stored Hstored Hend.
    rewrite <- XORKeyStream_ctr_xor in Hstored
      by (rewrite Hbs; unfold aes.BlockSize; lia).
    rewrite (DecryptStream_Buffer c blk stored iv _ _ Hblk Hbs Hstored Hlen Hend).
    rewrite XORKeyStream_inverse. reflexivity.
Qed.

(** C8 (the code departs from the claim): a key string of 32 hexadecimal
    digits followed by [zz] is malformed, [hex.DecodeString] reports the
    invalid byte, and [Init] all the same returns a cipher, keyed with the
    16 bytes decoded before the error. *)
Theorem Init_accepts_malformed_key c0 :
  snd (hex.DecodeString "00112233445566778899aabbccddeeffzz") =
    Some (InvalidByteError "z"%char) /\
  exists c key,
    Init aes_encrypt c0 "00112233445566778899aabbccddeeffzz" = Returned c /\
    block c = Some {| BlockSize := 16; Encrypt := aes_encrypt key |} /\
    length key = 16%nat.
Proof.
  split; [reflexivity|].
  eexists. exists (fst (hex.DecodeString "00112233445566778899aabbccddeeff")).
  split; [|split]; reflexivity.
Qed.

(** The part of C8 the code does keep: a key string whose decoded bytes do
    not number 16, 24 or 32 makes [Init] panic with the key size error. *)
Lemma Init_panics_on_key_size c0 hexKey :
  let k := length (fst (hex.DecodeString hexKey)) in
  k <> 16%nat -> k <> 24%nat -> k <> 32%nat ->
  Init aes_encrypt c0 hexKey = Panic (Error (KeySizeError k)).
Proof.
  cbv zeta. intros H16 H24 H32. unfold Init, aes.NewCipher.
  destruct (hex.DecodeString hexKey) as [key err]. cbn [fst] in *.
  destruct (Nat.eqb_spec (length key) 16); [contradiction|].
  destruct (Nat.eqb_spec (length key) 24); [contradiction|].
  destruct (Nat.eqb_spec (length key) 32); [contradiction|].
  reflexivity.
Qed.

End WithAES.

Lemma EncryptStream_layout_witness :
  exists blk output,
    block test_cipher = Some blk /\
    EncryptStream test_cipher test_rand test_plaintext {| Bytes := [] |} =
      Returned (None, {| Bytes := [] ++ output |}) /\
    output = test_iv ++ ctr_xor blk test_iv (concat (chunks test_plaintext)) /\
    length output = (16 + length (concat (chunks test_plaintext)))%nat /\
    take 16 output = test_iv.
Proof.
  apply (EncryptStream_layout toy_block {| block := None |} test_key
           test_cipher test_rand test_rand_after test_iv test_plaintext
           {| Bytes := [] |}).
  - reflexivity.
  - vm_compute. reflexivity.
  - reflexivity.
Defined.

Lemma DecryptStream_EncryptStream_witness :
  exists encrypted,
    EncryptStream test_cipher test_rand test_plaintext {| Bytes := [] |} =
      Returned (None, encrypted) /\
    forall stored : ChunkReader,
      concat (chunks stored) = Bytes encrypted -> final stored = EOF ->
      DecryptStream test_cipher stored {| Bytes := [] |} =
        Returned (None, {| Bytes := concat (chunks test_plaintext) |}).
Proof.
  apply (DecryptStream_EncryptStream toy_block {| block := None |} test_key
           test_cipher test_rand test_rand_after test_iv test_plaintext).
  - reflexivity.
  - vm_compute. reflexivity.
  - reflexivity.
Defined.

(** The round trip of the empty plaintext, computed. *)
Example DecryptStream_EncryptStream_empty :
  exists encrypted,
    EncryptStream test_cipher test_rand {| chunks := []; final := EOF |}
                  {| Bytes := [] |} = Returned (None, {| Bytes := encrypted |}) /\
    length encrypted = 16%nat /\
    DecryptStream test_cipher {| chunks := [encrypted]; final := EOF |}
                  {| Bytes := [] |} = Returned (None, {| Bytes := [] |}).
Proof.
  eexists. split; [vm_compute; reflexivity|]. split; vm_compute; reflexivity.
Qed.

End StreamCipher_facts.

(** ** The request handlers *)

Section Handler_facts.
Import io cipher http main.

(** A response whose header has not been sent yet gets the status code of
    [http.Error]. *)
Lemma Error_status (w : ResponseWriter) msg code :
  sent w = None -> status (Error_ w msg code) = Some code.
Proof.
  intros Hfresh. unfold Error_, Fprint, status, WriteHeader.
  cbn [Write ResponseWriter_Writer snd sent header body WriteHeader].
  rewrite Hfresh. reflexivity.
Qed.

Lemma Write_streaming h (w : ResponseWriter) (p : bytes) :
  streaming h w ->
  fst (Write w p) = (length p, None) /\ streaming h (snd (Write w p)) /\
  sent (snd (Write w p)) = Some (StatusOK, h).
Proof.
  intros [Hh Hs]. unfold streaming.
  cbn [Write ResponseWriter_Writer fst snd sent header]. unfold WriteHeader.
  destruct Hs as [Hs|Hs]; rewrite Hs; cbn [sent header]; rewrite ?Hh; auto.
Qed.

Lemma Fprint_streaming h (w : ResponseWriter) s :
  streaming h w -> sent (Fprint w s) = Some (StatusOK, h).
Proof. intros Hw. apply (Write_streaming h w), Hw. Qed.

(** [io.Copy] into a response only writes. *)
Lemma copyBuffer_streaming {R} `{Reader R} h fuel :
  forall (w : ResponseWriter) (src : R),
    streaming h w -> streaming h (snd (fst (copyBuffer fuel w src))).
Proof.
  induction fuel as [|fuel IH]; intros w src Hw; [exact Hw|].
  cbn [copyBuffer]. destruct (Read src copy_buffer_size) as [[p er] src'].
  destruct (Nat.ltb_spec 0 (length p)) as [Hpos|Hzero].
  - destruct (Write_streaming h w p Hw) as (Hres & Hw' & _).
    destruct (Write w p) as [[nw ew] w']. cbn [fst snd] in *.
    injection Hres as -> ->. rewrite Nat.ltb_irrefl, Nat.eqb_refl.
    destruct er as [[]|]; cbn [fst snd]; try exact Hw'. apply IH, Hw'.
  - destruct er as [[]|]; cbn [fst snd]; try exact Hw. apply IH, Hw.
Qed.

Lemma DecryptStream_streaming {R} `{Reader R} h c (src : R)
  (w w' : ResponseWriter) err :
  streaming h w ->
  cryptography.DecryptStream c src w = Returned (err, w') -> streaming h w'.
Proof.
  intros Hw. unfold cryptography.DecryptStream.
  destruct (ReadFull src aes.BlockSize) as [[iv e] src'].
  destruct e as [e|]; [intros [= _ <-]; exact Hw|].
  destruct (cryptography.block c) as [blk|]; [|discriminate].
  destruct (cipher.NewCTR blk iv) as [stream|]; [|discriminate].
  unfold Copy.
  pose proof (copyBuffer_streaming h
                (S (unread {| cipher.SR_S := stream; cipher.SR_R := src' |}))
                w {| cipher.SR_S := stream; cipher.SR_R := src' |} Hw) as Hcopy.
  destruct (copyBuffer _ w _) as [[e w1] src1]. cbn [fst snd] in Hcopy.
  destruct e; intros [= _ <-]; exact Hcopy.
Qed.

(** C5, as the handler has it: 400 without a usable [uid]; 404 for a UID
    the tracker does not hold, with no [GetObject] call; 500 when
    [GetObject] fails; 408 when [Stat] fails or the metadata has no
    [Filename]; 500 when [DecryptStream] fails with nothing of the body
    sent yet; and when it succeeds, 200 with the [Content-Disposition]
    header naming the stored file. *)
Theorem fetchAndDecryptHandler_status (minioClient : minio.Client)
  (cipher : cryptography.StreamCipher) (uidTracker : uid.UidTracker)
  (w : ResponseWriter) (r : Request) :
  sent w = None ->
  let uidStr := Get (Query r) "uid" in
  let run := fetchAndDecryptHandler minioClient cipher uidTracker w r in
  (uidStr = "" \/ snd (strconv.ParseUint uidStr) <> None ->
     exists w', run = Returned (w', []) /\
                status w' = Some StatusBadRequest) /\
  (forall uid,
     uidStr <> "" -> strconv.ParseUint uidStr = (uid, None) ->
     uid.Contains uidTracker uid = false ->
     exists w', run = Returned (w', []) /\ status w' = Some StatusNotFound) /\
  (forall uid,
     uidStr <> "" -> strconv.ParseUint uidStr = (uid, None) ->
     uid.Contains uidTracker uid = true ->
     match minio.GetObject minioClient BUCKET_NAME uidStr with
     | inr _ =>
         exists w', run = Returned (w', [(BUCKET_NAME, uidStr)]) /\
                    status w' = Some StatusInternalServerError
     | inl object =>
         match minio.Stat object with
         | inr _ =>
             exists w', run = Returned (w', [(BUCKET_NAME, uidStr)]) /\
                        status w' = Some 408
         | inl objectInfo =>
             match minio.UserMetadata objectInfo !! "Filename" with
             | None =>
                 exists w', run = Returned (w', [(BUCKET_NAME, uidStr)]) /\
                            status w' = Some 408
             | Some filename =>
                 let w1 := {| header := download_header (header w) filename;
                              sent := None; body := body w |} in
                 match cryptography.DecryptStream
                         cipher (minio.content object) w1 with
                 | Panic msg => run = Panic msg
                 | Returned (Some _, w2) =>
                     sent w2 = None ->
                     exists w', run = Returned (w', [(BUCKET_NAME, uidStr)]) /\
                                status w' = Some StatusInternalServerError
                 | Returned (None, w2) =>
                     exists w', run = Returned (w', [(BUCKET_NAME, uidStr)]) /\
                                status w' = Some StatusOK /\
                                sent_header w' =
                                  Some (download_header (header w) filename)
                 end
             end
         end
     end).
Proof.
  intros Hfresh uidStr run. subst run. unfold fetchAndDecryptHandler.
  fold uidStr. split; [|split].
  - intros Hbad. destruct (String.eqb_spec uidStr "") as [He|Hne].
    + eexists. split; [reflexivity|]. apply Error_status, Hfresh.
    + destruct Hbad as [He|Hparse]; [contradiction|].
      destruct (strconv.ParseUint uidStr) as [uid [e|]];
        [|contradiction Hparse; reflexivity].
      eexists. split; [reflexivity|]. apply Error_status, Hfresh.
  - intros uid Hne Hparse Hout.
    destruct (String.eqb_spec uidStr "") as [He|_]; [contradiction|].
    rewrite Hparse, Hout. cbn [negb].
    eexists. split; [reflexivity|]. apply Error_status, Hfresh.
  - intros uid Hne Hparse Hin.
    destruct (String.eqb_spec uidStr "") as [He|_]; [contradiction|].
    rewrite Hparse, Hin. cbn [negb].
    destruct (minio.GetObject minioClient BUCKET_NAME uidStr)
      as [object|e].
    2:{ eexists. split; [reflexivity|]. apply Error_status, Hfresh. }
    destruct (minio.Stat object) as [objectInfo|e].
    2:{ eexists. split; [reflexivity|]. apply Error_status, Hfresh. }
    destruct (minio.UserMetadata objectInfo !! "Filename") as [filename|].
    2:{ eexists. split; [reflexivity|]. apply Error_status, Hfresh. }
    rewrite Hfresh. fold (download_header (header w) filename).
    set (w1 := {| header := download_header (header w) filename;
                  sent := None; body := body w |}).
    assert (Hw1 : streaming (download_header (header w) filename) w1)
      by (split; [reflexivity | left; reflexivity]).
    destruct (cryptography.DecryptStream cipher (minio.content object) w1)
      as [[[e|] w2]|msg] eqn:Edec; [| |reflexivity].
    + intros Hunsent. eexists. split; [reflexivity|].
      apply Error_status, Hunsent.
    + pose proof (DecryptStream_streaming _ _ _ _ _ _ Hw1 Edec) as Hw2.
      eexists. split; [reflexivity|].
      unfold status, sent_header.
      rewrite (Fprint_streaming _ w2 _ Hw2). split; reflexivity.
Qed.

(** C9: a request without a [File-Size] header makes [uploadHandler] panic
    on the index into the empty header slice, before anything is written
    or reserved; the 412 response belongs to the branch behind that index,
    taken when the first value of the header does not parse. *)
Theorem uploadHandler_File_Size pipeline fuel (w : ResponseWriter)
  (r : Request) (uidTracker : uid.UidTracker) (g : uid.Rand)
  (ctx : uid.Context) :
  (Header_ r !! "File-Size" = None ->
     uploadHandler pipeline fuel w r uidTracker g ctx =
       Some (Panic index_out_of_range)) /\
  (forall v vs,
     Header_ r !! "File-Size" = Some (v :: vs) ->
     snd (strconv.ParseInt v) <> None ->
     exists w',
       uploadHandler pipeline fuel w r uidTracker g ctx =
         Some (Returned (w', uidTracker, g)) /\
       (sent w = None -> status w' = Some StatusPreconditionFailed)).
Proof.
  unfold uploadHandler. split.
  - intros ->. reflexivity.
  - intros v vs -> Hparse.
    destruct (strconv.ParseInt v) as [fileSize [e|]];
      [|contradiction Hparse; reflexivity].
    eexists. split; [reflexivity|]. apply Error_status.
Qed.

End Handler_facts.

(** ** Closed instances of the handlers *)

Section Handler_instances.
Import io cipher http main.

(** C5 as stated fails: a [Stat] failure of the storage answers 408, not
    500. *)
Lemma fetch_Stat_failure_is_408 :
  exists w',
    fetchAndDecryptHandler client_Stat_fails test_cipher
                           tracker_7 fresh_response fetch_7 =
      Returned (w', [(BUCKET_NAME, "7")]) /\
    status w' = Some 408 /\
    status w' <> Some StatusInternalServerError.
Proof.
  eexists. split; [reflexivity|]. split; [reflexivity|]. discriminate.
Qed.

Lemma fetchAndDecryptHandler_status_witness :
  exists w',
    fetchAndDecryptHandler client_stored test_cipher
                           tracker_7 fresh_response fetch_7 =
      Returned (w', [(BUCKET_NAME, "7")]) /\
    status w' = Some StatusOK /\
    sent_header w' = Some (download_header ∅ "report.txt").
Proof.
  destruct (fetchAndDecryptHandler_status client_stored
              test_cipher tracker_7 fresh_response fetch_7
              eq_refl) as (_ & _ & Hfetch).
  exact (Hfetch 7 ltac:(discriminate) eq_refl eq_refl).
Defined.

(** A read failure after the first body bytes: the header went out with
    status 200 at the first write, and [http.Error] cannot change it. *)
Example fetch_late_failure_keeps_200 :
  exists w',
    fetchAndDecryptHandler client_read_fails test_cipher tracker_7
                           fresh_response fetch_7 =
      Returned (w', [(BUCKET_NAME, "7")]) /\
    status w' = Some StatusOK /\ length (body w') = (3 + 24)%nat.
Proof.
  eexists. split; [vm_compute; reflexivity|]. split; reflexivity.
Qed.

(** An object shorter than an IV: nothing is written before
    [DecryptStream] fails, and the answer is 500. *)
Example fetch_short_object_is_500 :
  exists w',
    fetchAndDecryptHandler
      {| minio.GetObject := fun _ _ =>
           inl {| minio.Stat := inl report_txt;
                  minio.content :=
                    {| chunks := [repeat x01 5]; final := EOF |} |} |}
      test_cipher tracker_7 fresh_response fetch_7 =
      Returned (w', [(BUCKET_NAME, "7")]) /\
    status w' = Some StatusInternalServerError.
Proof.
  eexists. split; [vm_compute; reflexivity|]. reflexivity.
Qed.

Lemma uploadHandler_File_Size_witness :
  uploadHandler (fun w _ _ _ => w) 1 fresh_response upload_no_size tracker_7
                (uid.draws [9] 0) {| uid.Done := false |} =
    Some (Panic index_out_of_range) /\
  exists w',
    uploadHandler (fun w _ _ _ => w) 1 fresh_response upload_bad_size
                  tracker_7 (uid.draws [9] 0) {| uid.Done := false |} =
      Some (Returned (w', tracker_7, uid.draws [9] 0)) /\
    status w' = Some StatusPreconditionFailed.
Proof.
  split.
  - apply (proj1 (uploadHandler_File_Size (fun w _ _ _ => w) 1 fresh_response
                    upload_no_size tracker_7 (uid.draws [9] 0)
                    {| uid.Done := false |})).
    reflexivity.
  - destruct (proj2 (uploadHandler_File_Size (fun w _ _ _ => w) 1
                       fresh_response upload_bad_size tracker_7
                       (uid.draws [9] 0) {| uid.Done := false |})
                "12 bytes" [] eq_refl ltac:(discriminate))
      as (w' & Hrun & Hstatus).
    exists w'. split; [exact Hrun | exact (Hstatus eq_refl)].
Defined.

End Handler_instances.

(** ** More on the UID tracker *)

Section UidTracker_more.
Import uid.

Implicit Types (t : UidTracker) (g : Rand) (m : gmap Z bool).

(** The entry of a key after the loop of [Init]. *)
Lemma Init_lookup_value (l : list Z) : forall m x,
  fold_left (fun m elem => <[elem := true]> m) l m !! x =
  if decide (x ∈ l) then Some true else m !! x.
Proof.
  induction l as [|a l IH]; intros m x; cbn [fold_left].
  - destruct (decide (x ∈ [])) as [Hin|_]; [|reflexivity].
    apply elem_of_nil in Hin. contradiction.
  - rewrite IH. destruct (decide (x ∈ l)) as [Hin|Hout];
      destruct (decide (x ∈ a :: l)) as [Hin'|Hout']; try reflexivity.
    + contradiction Hout'. right. exact Hin.
    + apply elem_of_cons in Hin' as [->|Hin']; [|contradiction].
      apply lookup_insert_eq.
    + apply lookup_insert_ne. intros ->. apply Hout'. left.
Qed.

(** X1: of two [AddUid] calls for the same free UID, whichever takes the
    lock first reserves it and gets it back with a nil error; the other,
    whenever its loop ends, is turned down with a recommendation that is
    neither that UID nor reserved, and changes nothing. *)
Theorem AddUid_same_candidate_twice fuel t g uid :
  Contains t uid = false ->
  exists t1,
    AddUid fuel t g uid = Some ((uid, None), t1, g) /\
    (forall fuel' g1 r,
       AddUid fuel' t1 g1 uid = Some r ->
       exists recommended g',
         r = ((0, Some (already_used uid recommended)), t1, g') /\
         recommended <> uid /\ Contains t1 recommended = false) /\
    (forall fuel' g1 k,
       Contains t1 (stream g1 (drawn g1 + k)%nat mod uint64_modulus) = false ->
       (k < fuel')%nat -> is_Some (AddUid fuel' t1 g1 uid)).
Proof.
  intros Hfree. apply Contains_false in Hfree.
  exists {| uids := <[uid := true]> (uids t) |}.
  assert (Hin : uids {| uids := <[uid := true]> (uids t) |} !! uid = Some true)
    by apply lookup_insert_eq.
  split; [|split].
  - unfold AddUid. rewrite Hfree. reflexivity.
  - intros fuel' g1 r H. unfold AddUid in H. rewrite Hin in H.
    destruct (recommend fuel' _ g1) as [[recommended g']|] eqn:E;
      [|discriminate].
    injection H as <-. exists recommended, g'.
    apply recommend_Some in E as (Hrec & _).
    split; [reflexivity|]. split.
    + intros ->. cbn [uids] in Hrec. rewrite lookup_insert_eq in Hrec.
      discriminate.
    + apply Contains_false, Hrec.
  - intros fuel' g1 k Hk Hlt. apply Contains_false in Hk.
    unfold AddUid. rewrite Hin.
    destruct (recommend_complete fuel' _ g1 k Hk Hlt) as [[v g'] ->]. eauto.
Qed.

Lemma AddUid_same_candidate_twice_witness :
  exists t1,
    AddUid 0 (Init {| uids := ∅ |} [32; 48]) (draws [49; 50] 0) 49 =
      Some ((49, None), t1, draws [49; 50] 0) /\
    exists recommended g',
      AddUid 2 t1 (draws [49; 50] 0) 49 =
        Some ((0, Some (already_used 49 recommended)), t1, g') /\
      recommended <> 49.
Proof.
  destruct (AddUid_same_candidate_twice 0 (Init {| uids := ∅ |} [32; 48])
              (draws [49; 50] 0) 49 ltac:(vm_compute; reflexivity))
    as (t1 & Hfirst & Hconflict & Hends).
  exists t1. split; [exact Hfirst|].
  destruct (Hends 2%nat (draws [49; 50] 0) 1%nat) as [r Hr].
  - apply Contains_false. injection Hfirst as <-. vm_compute. reflexivity.
  - lia.
  - destruct (Hconflict _ _ _ Hr) as (recommended & g' & -> & Hne & _).
    exists recommended, g'. split; [exact Hr | exact Hne].
Defined.

(** X2: [AddUid] and [GenerateAndAdd] never drop a reservation, and a call
    adds at most one UID: the candidate, or the value drawn. *)
Theorem reservations_only_grow t g :
  (forall fuel uid res t' g',
     AddUid fuel t g uid = Some (res, t', g') ->
     forall x, Contains t' x = true <->
               Contains t x = true \/ (x = uid /\ snd res = None)) /\
  (forall ctx res t' g',
     GenerateAndAdd t g ctx = (res, t', g') ->
     forall x, Contains t' x = true <->
               Contains t x = true \/
               (x = fst res /\ Done ctx = false /\
                Contains t (fst (Uint64 g)) = false)).
Proof.
  split.
  - intros fuel uid res t' g' H x. unfold AddUid in H.
    destruct (uids t !! uid) as [b|] eqn:E.
    + destruct (recommend fuel (uids t) g) as [[v g1]|]; [|discriminate].
      injection H as <- <- <-. cbn [snd]. split; [tauto|].
      intros [Hx|[_ Hnone]]; [exact Hx | discriminate].
    + injection H as <- <- <-. cbn [snd]. rewrite !Contains_true. cbn [uids].
      rewrite lookup_insert_is_Some. split.
      * intros [->|[_ Hx]]; [right; split; reflexivity | left; exact Hx].
      * intros [Hx|[-> _]]; [|left; reflexivity].
        destruct (decide (uid = x)) as [->|Hne]; [left; reflexivity|].
        right. split; assumption.
  - intros ctx res t' g' H x. unfold GenerateAndAdd in H.
    destruct (Done ctx) eqn:Ed.
    + injection H as <- <- <-. split; [tauto|].
      intros [Hx|(_ & Hd & _)]; [exact Hx | discriminate].
    + unfold Contains at 3. cbn [Uint64 fst] in *.
      destruct (uids t !! (stream g (drawn g) mod uint64_modulus))
        as [b|] eqn:E; injection H as <- <- <-.
      * split; [tauto|]. intros [Hx|(_ & _ & Hf)]; [exact Hx | discriminate].
      * cbn [fst]. rewrite !Contains_true. cbn [uids].
        rewrite lookup_insert_is_Some. split.
        -- intros [<-|[_ Hx]]; [right; repeat split | left; exact Hx].
        -- intros [Hx|(-> & _)]; [|left; reflexivity].
           destruct (decide (stream g (drawn g) mod uint64_modulus = x))
             as [->|Hne]; [left; reflexivity|]. right. split; assumption.
Qed.

Lemma reservations_only_grow_witness :
  Contains {| uids := <[49 := true]> (uids (Init {| uids := ∅ |} [32; 48])) |}
           32 = true <->
  Contains (Init {| uids := ∅ |} [32; 48]) 32 = true \/
  (32 = 49 /\ snd (49, @None error) = None).
Proof.
  apply (proj1 (reservations_only_grow (Init {| uids := ∅ |} [32; 48])
                  (draws [] 0))
           0%nat 49 (49, None)
           {| uids := <[49 := true]> (uids (Init {| uids := ∅ |} [32; 48])) |}
           (draws [] 0)).
  vm_compute. reflexivity.
Defined.

(** X3: with a live context and a draw that is free, [GenerateAndAdd]
    makes exactly one draw, returns it with a nil error, and reserves it
    and nothing else; the UID is a 64-bit value that was free before. *)
Theorem GenerateAndAdd_reserves_free_draw t g ctx :
  Done ctx = false ->
  Contains t (fst (Uint64 g)) = false ->
  exists uid t' g',
    GenerateAndAdd t g ctx = ((uid, None), t', g') /\
    uid = stream g (drawn g) mod uint64_modulus /\
    0 <= uid < uint64_modulus /\
    drawn g' = S (drawn g) /\
    Contains t uid = false /\
    forall x, Contains t' x = (bool_decide (x = uid) || Contains t x)%bool.
Proof.
  intros Hlive Hfree.
  exists (fst (Uint64 g)), {| uids := <[fst (Uint64 g) := true]> (uids t) |},
         (snd (Uint64 g)).
  split; [|split; [reflexivity|split; [apply Uint64_range|split;
          [reflexivity|split; [exact Hfree|]]]]].
  - apply Contains_false in Hfree. unfold GenerateAndAdd. rewrite Hlive.
    cbn [Uint64 fst snd] in *. rewrite Hfree. reflexivity.
  - intros x. unfold Contains at 1. cbn [uids].
    destruct (decide (x = fst (Uint64 g))) as [->|Hne].
    + rewrite lookup_insert_eq, bool_decide_eq_true_2; reflexivity.
    + rewrite lookup_insert_ne by congruence.
      rewrite bool_decide_eq_false_2 by exact Hne. reflexivity.
Qed.

Lemma GenerateAndAdd_reserves_free_draw_witness :
  exists uid t' g',
    GenerateAndAdd (Init {| uids := ∅ |} [32; 48]) (draws [77] 0)
                   {| Done := false |} = ((uid, None), t', g') /\
    uid = 77 /\ 0 <= uid < uint64_modulus /\ drawn g' = 1%nat /\
    Contains (Init {| uids := ∅ |} [32; 48]) uid = false /\
    forall x, Contains t' x =
              (bool_decide (x = uid) ||
               Contains (Init {| uids := ∅ |} [32; 48]) x)%bool.
Proof.
  apply (GenerateAndAdd_reserves_free_draw (Init {| uids := ∅ |} [32; 48])
           (draws [77] 0) {| Done := false |}).
  - reflexivity.
  - vm_compute. reflexivity.
Defined.

(** X4: the tracker that [Init] builds depends on nothing but the set of
    elements of its argument: neither the order, nor the repetitions, nor
    what the tracker held before matter, and every entry is [true]. *)
Theorem Init_same_elements t t' (S S' : list Z) :
  (forall x, x ∈ S <-> x ∈ S') ->
  Init t S = Init t' S' /\
  forall x, uids (Init t S) !! x = if decide (x ∈ S) then Some true else None.
Proof.
  intros Hsame.
  assert (Hval : forall (u : UidTracker) (l : list Z) x,
             uids (Init u l) !! x = if decide (x ∈ l) then Some true else None).
  { intros u l x. unfold Init. cbn [uids].
    rewrite Init_lookup_value, lookup_empty. reflexivity. }
  split; [|apply Hval].
  assert (Heq : uids (Init t S) = uids (Init t' S')).
  { apply map_eq. intros x. rewrite !Hval.
    destruct (decide (x ∈ S)) as [Hin|Hout].
    - rewrite decide_True by (apply Hsame, Hin). reflexivity.
    - rewrite decide_False by (rewrite <- Hsame; exact Hout). reflexivity. }
  unfold Init in *. cbn [uids] in Heq. rewrite Heq. reflexivity.
Qed.

Lemma Init_same_elements_witness :
  Init {| uids := ∅ |} [32; 48; 32; 0] = Init {| uids := {[ 5 := true ]} |} [0; 48; 32] /\
  forall x, uids (Init {| uids := ∅ |} [32; 48; 32; 0]) !! x =
            if decide (x ∈ [32; 48; 32; 0]) then Some true else None.
Proof.
  apply (Init_same_elements {| uids := ∅ |} {| uids := {[ 5 := true ]} |}
           [32; 48; 32; 0] [0; 48; 32]).
  intros x. rewrite !elem_of_cons, !elem_of_nil. tauto.
Defined.

End UidTracker_more.

(** ** Decimal strings *)

Section strconv_facts.
Import strconv.

Lemma uint_acc_ge d : forall acc, 0 <= acc -> acc <= uint_acc d acc.
Proof.
  induction d; intros acc Hacc; simpl; try lia;
    match goal with
    | |- _ <= uint_acc _ ?a => specialize (IHd a); lia
    end.
Qed.

Lemma uint_acc_of_lu d : forall d',
  uint_acc d (Z.of_N (DecimalPos.Unsigned.of_lu d')) =
  Z.of_N (DecimalPos.Unsigned.of_lu (Decimal.revapp d d')).
Proof.
  induction d; intros d'; simpl; try reflexivity;
    rewrite <- IHd; f_equal; cbn [DecimalPos.Unsigned.of_lu]; lia.
Qed.

Lemma uint_acc_to_uint (n : N) : uint_acc (N.to_uint n) 0 = Z.of_N n.
Proof.
  rewrite <- (DecimalN.Unsigned.of_to n) at 2.
  change 0 with (Z.of_N (DecimalPos.Unsigned.of_lu Decimal.Nil)).
  rewrite uint_acc_of_lu. unfold N.of_uint.
  rewrite DecimalPos.Unsigned.of_uint_alt. reflexivity.
Qed.

(** The digit loop of [ParseUint] on a printed digit sequence whose value
    fits 64 bits. *)
Lemma parse_digits_string_of_uint d : forall acc,
  0 <= acc -> uint_acc d acc <= maxUint64 ->
  parse_digits (NilEmpty.string_of_uint d) acc = (uint_acc d acc, None).
Proof.
  unfold maxUint64.
  induction d; intros acc Hacc Hfit; cbn [NilEmpty.string_of_uint uint_acc] in *;
    try reflexivity;
    match type of Hfit with
    | uint_acc _ ?a <= _ =>
        pose proof (uint_acc_ge d a ltac:(lia)) as Hge;
        specialize (IHd a ltac:(lia) Hfit)
    end;
    cbn [parse_digits]; unfold maxUint64;
    match goal with
    | |- context [N_of_ascii ?c] =>
        let k := eval vm_compute in (Z.of_N (N_of_ascii c)) in
        change (Z.of_N (N_of_ascii c)) with k
    end;
    cbn [Z.leb Z.compare Pos.compare Pos.compare_cont andb];
    change (2 ^ 64 - 1) with 18446744073709551615 in *;
    change ((18446744073709551615 / 10) + 1) with 1844674407370955162;
    change (2 ^ 64) with 18446744073709551616;
    (destruct (Z.leb_spec 1844674407370955162 acc) as [Hbig|_]; [lia|]);
    rewrite (Z.mod_small (acc * 10)) by lia;
    match goal with
    | |- context [(acc * 10 + ?k) mod _] =>
        rewrite (Z.mod_small (acc * 10 + k)) by lia;
        (destruct (Z.ltb_spec (acc * 10 + k) (acc * 10)) as [Hw|_]; [lia|]);
        (destruct (Z.ltb_spec 18446744073709551615 (acc * 10 + k))
           as [Hw|_]; [lia|]);
        cbn [orb];
        first [ rewrite Z.add_0_r in * | idtac ]; exact IHd
    end.
Qed.

End strconv_facts.

Section strconv_round_trip.
Import strconv.

Lemma parse_digits_range (s : string) : forall n u,
  parse_digits s n = (u, None) -> 0 <= n <= maxUint64 -> 0 <= u <= maxUint64.
Proof.
  induction s as [|c s IH]; intros n u H Hn; cbn [parse_digits] in H.
  - injection H as <-. exact Hn.
  - destruct ((48 <=? Z.of_N (N_of_ascii c)) && (Z.of_N (N_of_ascii c) <=? 57));
      [|discriminate].
    destruct (maxUint64 / 10 + 1 <=? n); [discriminate|].
    set (n1 := ((n * 10) mod 2 ^ 64 + (Z.of_N (N_of_ascii c) - 48)) mod 2 ^ 64)
      in H.
    destruct (n1 <? (n * 10) mod 2 ^ 64); [discriminate|].
    destruct (Z.ltb_spec maxUint64 n1) as [|Hle]; [discriminate|].
    cbn [orb] in H. apply (IH n1 u H). split; [|exact Hle].
    apply Z.mod_pos_bound. lia.
Qed.

(** What [ParseUint] accepts is a 64-bit value. *)
Lemma ParseUint_range s u :
  ParseUint s = (u, None) -> 0 <= u < uid.uint64_modulus.
Proof.
  unfold ParseUint. destruct s as [|c s]; [discriminate|].
  destruct (parse_digits (String c s) 0) as [n [e|]] eqn:E; [discriminate|].
  intros [= <-]. apply parse_digits_range in E.
  - unfold maxUint64, uid.uint64_modulus in *. lia.
  - unfold maxUint64. lia.
Qed.

(** The decimal text that [strconv.FormatUint] prints for a 64-bit value
    is read back by [strconv.ParseUint] as that value. *)
Lemma ParseUint_FormatUint n :
  0 <= n < uid.uint64_modulus -> ParseUint (FormatUint n) = (n, None).
Proof.
  intros Hn. unfold FormatUint, NilZero.string_of_uint.
  pose proof (uint_acc_to_uint (Z.to_N n)) as Hval.
  rewrite Z2N.id in Hval by lia.
  assert (Hnonnil : N.to_uint (Z.to_N n) <> Decimal.Nil).
  { destruct (Z.to_N n) as [|p]; [discriminate|].
    apply DecimalPos.Unsigned.to_uint_nonnil. }
  assert (Hparse : parse_digits (NilEmpty.string_of_uint (N.to_uint (Z.to_N n))) 0
                   = (n, None)).
  { rewrite parse_digits_string_of_uint; [rewrite Hval; reflexivity|lia|].
    rewrite Hval. unfold maxUint64, uid.uint64_modulus in *. lia. }
  destruct (N.to_uint (Z.to_N n)) as [|d|d|d|d|d|d|d|d|d|d] eqn:Ed;
    [contradiction Hnonnil; reflexivity|..];
    unfold ParseUint; cbn [NilEmpty.string_of_uint] in *; rewrite Hparse;
    reflexivity.
Qed.

(** A zero in front changes nothing for [ParseUint]. *)
Lemma ParseUint_leading_zero s u :
  ParseUint s = (u, None) -> ParseUint (String "0" s) = (u, None).
Proof.
  unfold ParseUint. destruct s as [|c s]; [discriminate|].
  change (parse_digits (String "0" (String c s)) 0)
    with (parse_digits (String c s) 0).
  destruct (parse_digits (String c s) 0) as [n [e|]]; [discriminate|].
  intros H. exact H.
Qed.

End strconv_round_trip.

(** ** Copying through a cipher stream, whatever the sink and the end *)

Section Appending.
Import io cipher.

(** A sink that takes every write whole and appends it to what it
    holds. *)
Context {W : Type} `{Writer W} (written : W -> bytes).
Hypothesis Write_appends : forall (w : W) (p : bytes),
  fst (Write w p) = (length p, None) /\
  written (snd (Write w p)) = written w ++ p.

Lemma copyBuffer_StreamReader_appends fuel : forall (src : ChunkReader) x w,
  (unread src < fuel)%nat ->
  fst (fst (copyBuffer fuel w {| SR_S := x; SR_R := src |})) =
    final_error (final src) /\
  written (snd (fst (copyBuffer fuel w {| SR_S := x; SR_R := src |}))) =
    written w ++ fst (XORKeyStream x (concat (chunks src))).
Proof.
  induction fuel as [|fuel IH]; intros src x w Hfuel; [lia|].
  cbn [copyBuffer]. rewrite StreamReader_Read.
  destruct (Read src copy_buffer_size) as [[p er] src'] eqn:E.
  apply ChunkReader_Read_cases in E; [|apply copy_buffer_size_pos].
  cbn [fst snd]. rewrite XORKeyStream_length.
  destruct er as [e|].
  - destruct E as (Hnil & -> & -> & ->). rewrite Hnil. cbn.
    rewrite app_nil_r. destruct (final src); split; reflexivity.
  - destruct E as (Hcat & _ & Hun & Hfin').
    rewrite Hcat, XORKeyStream_app. cbn [fst]. rewrite <- Hfin'.
    destruct (Nat.ltb_spec 0 (length p)) as [Hpos|Hzero].
    + destruct (Write_appends w (fst (XORKeyStream x p))) as [Hres Hw].
      destruct (Write w (fst (XORKeyStream x p))) as [[nw ew] w'].
      cbn [fst snd] in Hres, Hw. injection Hres as -> ->.
      rewrite XORKeyStream_length, Nat.ltb_irrefl, Nat.eqb_refl.
      destruct (IH src' (snd (XORKeyStream x p)) w' ltac:(lia)) as [He Hw'].
      rewrite He, Hw', Hw, app_assoc. split; reflexivity.
    + assert (p = []) as -> by (apply length_zero_iff_nil; lia).
      destruct (IH src' x w ltac:(lia)) as [He Hw']. cbn.
      rewrite He, Hw'. split; reflexivity.
Qed.

Lemma copyBuffer_StreamWriter_appends fuel : forall (src : ChunkReader) x w,
  (unread src < fuel)%nat ->
  fst (fst (copyBuffer fuel {| SW_S := x; SW_W := w |} src)) =
    final_error (final src) /\
  written (SW_W (snd (fst (copyBuffer fuel {| SW_S := x; SW_W := w |} src)))) =
    written w ++ fst (XORKeyStream x (concat (chunks src))).
Proof.
  induction fuel as [|fuel IH]; intros src x w Hfuel; [lia|].
  cbn [copyBuffer].
  destruct (Read src copy_buffer_size) as [[p er] src'] eqn:E.
  apply ChunkReader_Read_cases in E; [|apply copy_buffer_size_pos].
  destruct er as [e|].
  - destruct E as (Hnil & -> & -> & ->). rewrite Hnil. cbn.
    rewrite app_nil_r. destruct (final src); split; reflexivity.
  - destruct E as (Hcat & _ & Hun & Hfin').
    rewrite Hcat, XORKeyStream_app. cbn [fst]. rewrite <- Hfin'.
    destruct (Nat.ltb_spec 0 (length p)) as [Hpos|Hzero].
    + cbn [Write StreamWriter_Writer SW_S SW_W].
      pose proof (XORKeyStream_length p x) as Hlen.
      destruct (XORKeyStream x p) as [c x'] eqn:Ex. cbn [fst snd] in *.
      destruct (Write_appends w c) as [Hres Hw].
      destruct (Write w c) as [[nw ew] w']. cbn [fst snd] in Hres, Hw.
      injection Hres as -> ->. rewrite Hlen, Nat.eqb_refl.
      rewrite Nat.ltb_irrefl, Nat.eqb_refl.
      destruct (IH src' x' w' ltac:(lia)) as [He Hw'].
      rewrite He, Hw', Hw, app_assoc. split; reflexivity.
    + assert (p = []) as -> by (apply length_zero_iff_nil; lia).
      destruct (IH src' x w ltac:(lia)) as [He Hw']. cbn.
      rewrite He, Hw'. split; reflexivity.
Qed.


(** [DecryptStream] into such a sink, with a cipher that holds a block
    function: the sink receives the decryption of everything after the
    IV, and the end of the source decides the error. *)
Lemma DecryptStream_appends (c : cryptography.StreamCipher) blk
  (stored : ChunkReader) (iv data : bytes) (w : W) :
  cryptography.block c = Some blk -> BlockSize blk = aes.BlockSize ->
  concat (chunks stored) = iv ++ data -> length iv = aes.BlockSize ->
  exists w',
    cryptography.DecryptStream c stored w =
      Returned
        (match final_error (final stored) with
         | Some e =>
             Some (errorString ("error while decrypting stream: " ++ Error e))
         | None => None
         end, w') /\
    written w' = written w ++ ctr_xor blk iv data.
Proof.
  intros Hblk Hbs Hcat Hlen. unfold cryptography.DecryptStream.
  destruct (ReadFull_ChunkReader stored iv data aes.BlockSize Hcat Hlen)
    as (rest & -> & Hrest & Hfin).
  rewrite Hblk. unfold NewCTR. rewrite Hlen, Hbs, Nat.eqb_refl. unfold Copy.
  change (unread {| SR_S := {| b := blk; counter := iv; out := [] |};
                    SR_R := rest |}) with (unread rest).
  destruct (copyBuffer_StreamReader_appends (S (unread rest)) rest
              {| b := blk; counter := iv; out := [] |} w
              (Nat.lt_succ_diag_r _)) as [He Hw].
  destruct (copyBuffer _ w _) as [[err w'] src']. cbn [fst snd] in He, Hw.
  exists w'. rewrite He, Hfin, Hw, Hrest.
  rewrite XORKeyStream_ctr_xor by (rewrite Hbs; unfold aes.BlockSize; lia).
  destruct (final_error (final stored)); split; reflexivity.
Qed.

End Appending.

Section io_more.
Import io.

(** The loop of [ReadAtLeast] on a [ChunkReader] that holds too little:
    it takes everything there is and stops at the source's end. *)
Lemma readAtLeast_ChunkReader_short fuel : forall (r : ChunkReader) got size,
  (unread r < fuel)%nat ->
  (length got + length (concat (chunks r)) < size)%nat ->
  exists r',
    readAtLeast fuel r got size size =
      ((got ++ concat (chunks r), Some (final r)), r').
Proof.
  induction fuel as [|fuel IH]; intros r got size Hfuel Hshort; [lia|].
  cbn [readAtLeast].
  destruct (Nat.ltb_spec (length got) size) as [Hlt|Hge]; [|lia].
  destruct (Read r (size - length got)) as [[p er] r1] eqn:E.
  apply ChunkReader_Read_cases in E; [|lia].
  destruct er as [e|].
  - destruct E as (Hnil & -> & -> & ->). rewrite Hnil. eauto.
  - destruct E as (Hcat & Hp & Hun & Hfin).
    destruct (IH r1 (got ++ p) size) as (r' & Hloop).
    + lia.
    + rewrite length_app. rewrite Hcat, length_app in Hshort. lia.
    + exists r'. rewrite Hloop, Hcat, Hfin, app_assoc. reflexivity.
Qed.

End io_more.

(** ** More on the stream cipher *)

Section StreamCipher_more.
Import io cipher cryptography.

Lemma Buffer_appends (w : Buffer) (p : bytes) :
  fst (Write w p) = (length p, None) /\ Bytes (snd (Write w p)) = Bytes w ++ p.
Proof. split; reflexivity. Qed.

(** X5: a stored stream of fewer than 16 bytes makes [DecryptStream]
    fail on the IV, with [EOF] for an empty stream and [unexpected EOF]
    otherwise, whatever the cipher; nothing is written. *)
Theorem DecryptStream_short_input {W} `{Writer W} (c : StreamCipher)
  (stored : ChunkReader) (w : W) :
  (length (concat (chunks stored)) < aes.BlockSize)%nat ->
  final stored = EOF ->
  DecryptStream c stored w =
    Returned
      (Some (errorString
               ("unable to read iv: " ++
                if (length (concat (chunks stored)) =? 0)%nat
                then "EOF" else "unexpected EOF")), w).
Proof.
  intros Hshort Hfin. unfold DecryptStream, ReadFull.
  destruct (readAtLeast_ChunkReader_short (S (unread stored)) stored []
              aes.BlockSize ltac:(lia) ltac:(simpl; lia)) as (r' & ->).
  cbn [app]. rewrite Hfin.
  destruct (Nat.leb_spec aes.BlockSize (length (concat (chunks stored))))
    as [Hge|_]; [lia|].
  destruct (concat (chunks stored)) as [|x l]; reflexivity.
Qed.

Lemma DecryptStream_short_input_witness :
  DecryptStream {| block := None |}
                {| chunks := [repeat x01 5; repeat x02 10]; final := EOF |}
                {| Bytes := [x2a] |} =
    Returned (Some (errorString "unable to read iv: unexpected EOF"),
              {| Bytes := [x2a] |}).
Proof.
  apply (DecryptStream_short_input {| block := None |}
           {| chunks := [repeat x01 5; repeat x02 10]; final := EOF |}
           {| Bytes := [x2a] |}).
  - vm_compute. lia.
  - reflexivity.
Defined.

(** X6: whatever way the source of [EncryptStream] ends, the sink has
    received the IV and the encryption of all the source delivered; the
    call returns nil when the source ended with [EOF] and the source's
    own error otherwise, and what was written stays written. *)
Theorem EncryptStream_source_error {G} `{Reader G} (c : StreamCipher) blk
  (rand_Reader g' : G) (iv : bytes) (reader : ChunkReader) (sink : Buffer) :
  block c = Some blk -> BlockSize blk = aes.BlockSize ->
  ReadFull rand_Reader aes.BlockSize = ((iv, None), g') ->
  EncryptStream c rand_Reader reader sink =
    Returned (final_error (final reader),
              {| Bytes := Bytes sink ++ iv ++
                          ctr_xor blk iv (concat (chunks reader)) |}).
Proof.
  intros Hblk Hbs Hiv. unfold EncryptStream. rewrite Hiv, Hblk.
  apply ReadFull_length in Hiv. unfold NewCTR. rewrite Hiv, Hbs, Nat.eqb_refl.
  cbn [Write Buffer_Writer]. unfold Copy.
  destruct (copyBuffer_StreamWriter_appends Bytes Buffer_appends
              (S (unread reader)) reader
              {| b := blk; counter := iv; out := [] |}
              {| Bytes := Bytes sink ++ iv |} (Nat.lt_succ_diag_r _))
    as [He Hw].
  destruct (copyBuffer _ _ reader) as [[err sw] src'].
  cbn [fst snd Bytes] in He, Hw. subst err.
  rewrite XORKeyStream_ctr_xor in Hw
    by (rewrite Hbs; unfold aes.BlockSize; lia).
  rewrite <- app_assoc in Hw. destruct (SW_W sw) as [buf]. cbn [Bytes] in Hw.
  subst buf. destruct (final_error (final reader)); reflexivity.
Qed.

Lemma EncryptStream_source_error_witness :
  EncryptStream test_cipher test_rand
                {| chunks := [list_byte_of_string "part"];
                   final := ErrClosedPipe |}
                {| Bytes := [] |} =
    Returned (Some ErrClosedPipe,
              {| Bytes := [] ++ test_iv ++
                          ctr_xor test_block test_iv (list_byte_of_string "part" ++ []) |}).
Proof.
  apply (EncryptStream_source_error test_cipher test_block test_rand test_rand_after
           test_iv
           {| chunks := [list_byte_of_string "part"]; final := ErrClosedPipe |}
           {| Bytes := [] |}).
  - reflexivity.
  - reflexivity.
  - vm_compute. reflexivity.
Defined.

(** X7: [DecryptStream] turns down no stream of 16 bytes or more that
    ends with [EOF]: the first 16 bytes are taken as the IV and the rest,
    whatever it is, comes out xored with the key stream under that IV,
    byte for byte. *)
Theorem DecryptStream_accepts_any_stream (c : StreamCipher) blk
  (stored : ChunkReader) (sink : Buffer) :
  block c = Some blk -> BlockSize blk = aes.BlockSize ->
  (aes.BlockSize <= length (concat (chunks stored)))%nat ->
  final stored = EOF ->
  exists out,
    DecryptStream c stored sink =
      Returned (None, {| Bytes := Bytes sink ++ out |}) /\
    out = ctr_xor blk (take aes.BlockSize (concat (chunks stored)))
                  (drop aes.BlockSize (concat (chunks stored))) /\
    length out = (length (concat (chunks stored)) - aes.BlockSize)%nat.
Proof.
  intros Hblk Hbs Hlong Hfin.
  set (all := concat (chunks stored)) in *.
  assert (Hcat : concat (chunks stored) =
                 take aes.BlockSize all ++ drop aes.BlockSize all)
    by (symmetry; apply take_drop).
  assert (Hlen : length (take aes.BlockSize all) = aes.BlockSize)
    by (rewrite length_take; lia).
  destruct (DecryptStream_appends Bytes Buffer_appends c blk stored _ _ sink
              Hblk Hbs Hcat Hlen) as (w' & Hrun & Hw).
  rewrite Hfin in Hrun. cbn [final_error] in Hrun.
  eexists. split; [|split; [reflexivity|]].
  - rewrite Hrun. destruct w' as [buf]. cbn [Bytes] in Hw. rewrite Hw.
    reflexivity.
  - rewrite ctr_xor_length by (rewrite Hbs; unfold aes.BlockSize; lia).
    apply length_drop.
Qed.

Lemma DecryptStream_accepts_any_stream_witness :
  exists out,
    DecryptStream test_cipher
                  {| chunks := [repeat x00 20; repeat xff 3]; final := EOF |}
                  {| Bytes := [] |} =
      Returned (None, {| Bytes := [] ++ out |}) /\
    out = ctr_xor test_block
                  (take aes.BlockSize (concat [repeat x00 20; repeat xff 3]))
                  (drop aes.BlockSize (concat [repeat x00 20; repeat xff 3])) /\
    length out = (length (concat [repeat x00 20; repeat xff 3]) -
                  aes.BlockSize)%nat.
Proof.
  apply (DecryptStream_accepts_any_stream test_cipher test_block
           {| chunks := [repeat x00 20; repeat xff 3]; final := EOF |}
           {| Bytes := [] |}).
  - reflexivity.
  - reflexivity.
  - vm_compute. lia.
  - reflexivity.
Defined.

(** X8: what [EncryptStream] writes is never the plaintext itself: it is
    16 bytes longer. *)
Theorem EncryptStream_differs_from_plaintext {G} `{Reader G}
  (c : StreamCipher) blk (rand_Reader g' : G) (iv : bytes)
  (reader : ChunkReader) :
  block c = Some blk -> BlockSize blk = aes.BlockSize ->
  ReadFull rand_Reader aes.BlockSize = ((iv, None), g') ->
  final reader = EOF ->
  exists encrypted,
    EncryptStream c rand_Reader reader {| Bytes := [] |} =
      Returned (None, encrypted) /\
    Bytes encrypted <> concat (chunks reader).
Proof.
  intros Hblk Hbs Hiv Hfin. eexists. split.
  - apply (EncryptStream_Buffer c blk rand_Reader g'); eassumption.
  - cbn [Bytes app]. intros Heq. apply (f_equal length) in Heq.
    rewrite length_app, ctr_xor_length in Heq
      by (rewrite Hbs; unfold aes.BlockSize; lia).
    apply ReadFull_length in Hiv. unfold aes.BlockSize in Hiv. lia.
Qed.

Lemma EncryptStream_differs_from_plaintext_witness :
  exists encrypted,
    EncryptStream test_cipher test_rand test_plaintext {| Bytes := [] |} =
      Returned (None, encrypted) /\
    Bytes encrypted <> concat (chunks test_plaintext).
Proof.
  apply (EncryptStream_differs_from_plaintext test_cipher test_block test_rand
           test_rand_after test_iv test_plaintext).
  - reflexivity.
  - reflexivity.
  - vm_compute. reflexivity.
  - reflexivity.
Defined.

End StreamCipher_more.

(** ** Key strings *)

Section Key_facts.
Import cipher cryptography.

(** A string of [2 k] hexadecimal digits decodes to [k] bytes without an
    error. *)
Lemma DecodeString_well_formed k : forall s,
  String.length s = (2 * k)%nat ->
  forallb is_hex_digit (list_ascii_of_string s) = true ->
  snd (hex.DecodeString s) = None /\ length (fst (hex.DecodeString s)) = k.
Proof.
  induction k as [|k IH]; intros s Hlen Hhex.
  - destruct s; [split; reflexivity | discriminate].
  - destruct s as [|p [|q rest]]; try (simpl in Hlen; lia).
    cbn [list_ascii_of_string forallb] in Hhex.
    apply andb_prop in Hhex as [Hp Hhex]. apply andb_prop in Hhex as [Hq Hhex].
    unfold is_hex_digit in Hp, Hq. cbn [hex.DecodeString].
    destruct (hex.fromHexChar p) as [a|]; [|discriminate].
    destruct (hex.fromHexChar q) as [b'|]; [|discriminate].
    destruct (IH rest) as [Herr Hk]; [simpl in Hlen; lia | exact Hhex |].
    destruct (hex.DecodeString rest) as [dst err]. cbn [fst snd] in *.
    split; [exact Herr | simpl; lia].
Qed.

Variable aes_encrypt : bytes -> bytes -> bytes.

(** X9: on a key string of [2 k] hexadecimal digits, [Init] returns the
    cipher keyed with the [k] decoded bytes when [k] is 16, 24 or 32, and
    panics with the key size in the message for every other [k]. *)
Theorem Init_well_formed_key c0 hexKey k :
  String.length hexKey = (2 * k)%nat ->
  forallb is_hex_digit (list_ascii_of_string hexKey) = true ->
  length (fst (hex.DecodeString hexKey)) = k /\
  Init aes_encrypt c0 hexKey =
    if ((k =? 16) || (k =? 24) || (k =? 32))%nat
    then Returned
           {| block :=
                Some {| BlockSize := 16;
                        Encrypt :=
                          aes_encrypt (fst (hex.DecodeString hexKey)) |} |}
    else Panic ("crypto/aes: invalid key size " ++ Itoa k).
Proof.
  intros Hlen Hhex.
  destruct (DecodeString_well_formed k hexKey Hlen Hhex) as [_ Hk].
  split; [exact Hk|]. unfold Init, aes.NewCipher.
  destruct (hex.DecodeString hexKey) as [key err]. cbn [fst] in *.
  rewrite Hk. destruct ((k =? 16) || (k =? 24) || (k =? 32))%nat; reflexivity.
Qed.

End Key_facts.

Lemma Init_well_formed_key_witness :
  length (fst (hex.DecodeString test_key)) = 32%nat /\
  cryptography.Init toy_block {| cryptography.block := None |} test_key =
    Returned
      {| cryptography.block :=
           Some {| cipher.BlockSize := 16;
                   cipher.Encrypt :=
                     toy_block (fst (hex.DecodeString test_key)) |} |}.
Proof.
  apply (Init_well_formed_key toy_block {| cryptography.block := None |}
           test_key 32).
  - reflexivity.
  - vm_compute. reflexivity.
Defined.

(** ** More on the handlers *)

Section Handler_more.
Import io cipher http main.

Lemma ResponseWriter_appends (w : ResponseWriter) (p : bytes) :
  fst (Write w p) = (length p, None) /\ body (snd (Write w p)) = body w ++ p.
Proof.
  cbn [Write ResponseWriter_Writer fst snd body]. unfold WriteHeader.
  destruct (sent w); split; reflexivity.
Qed.

Lemma string_append_assoc (s1 s2 s3 : string) :
  ((s1 ++ s2) ++ s3 = s1 ++ s2 ++ s3)%string.
Proof.
  induction s1 as [|ch s1 IH]; [reflexivity|].
  change (String ch ((s1 ++ s2) ++ s3) = String ch (s1 ++ s2 ++ s3))%string.
  f_equal. exact IH.
Qed.

Lemma Error_body (w : ResponseWriter) msg code :
  body (Error_ w msg code) = body w ++ list_byte_of_string (msg ++ newline).
Proof.
  unfold Error_, Fprint.
  rewrite (proj2 (ResponseWriter_appends _ _)). unfold WriteHeader.
  cbn [sent]. destruct (sent w); reflexivity.
Qed.

(** Past the tracker check, every way the fetch handler returns has made
    its one [GetObject] call, for the query string as it came. *)
Lemma fetch_reaches_storage (minioClient : minio.Client)
  (c : cryptography.StreamCipher) (t : uid.UidTracker) (w : ResponseWriter)
  (r : Request) name u :
  Get (Query r) "uid" = name ->
  strconv.ParseUint name = (u, None) ->
  uid.Contains t u = true ->
  forall w' calls,
    fetchAndDecryptHandler minioClient c t w r = Returned (w', calls) ->
    calls = [(BUCKET_NAME, name)].
Proof.
  intros Hget Hparse Hin w' calls. unfold fetchAndDecryptHandler.
  rewrite Hget. destruct (String.eqb_spec name "") as [->|_];
    [discriminate Hparse|].
  rewrite Hparse, Hin. cbn [negb].
  destruct (minio.GetObject minioClient BUCKET_NAME name) as [object|e];
    [|intros [= _ <-]; reflexivity].
  destruct (minio.Stat object) as [info|e]; [|intros [= _ <-]; reflexivity].
  destruct (minio.UserMetadata info !! "Filename") as [filename|];
    [|intros [= _ <-]; reflexivity].
  destruct (cryptography.DecryptStream _ _ _) as [[[e|] w2]|msg];
    [intros [= _ <-]; reflexivity | intros [= _ <-]; reflexivity | discriminate].
Qed.

(** X10: when [getUniqueObjectName] reports an error, the tracker is as
    before and the response carries 412 for a [Uid] header that does not
    parse, 409 for one that is reserved, and 500 when no header was given
    and generation timed out; when it reports none, nothing has been
    written to the response. *)
Theorem getUniqueObjectName_outcomes fuel (w : ResponseWriter) (r : Request)
  (t : uid.UidTracker) (g : uid.Rand) (ctx : uid.Context) res :
  getUniqueObjectName fuel w r t g ctx = Some (Returned res) ->
  if errOccurred res
  then named_t res = t /\ objectName res = "" /\
       (sent w = None ->
        status (named_w res) =
          Some (match Header_ r !! "Uid" with
                | Some (s :: _) =>
                    match snd (strconv.ParseUint s) with
                    | Some _ => StatusPreconditionFailed
                    | None => StatusConflict
                    end
                | _ => StatusInternalServerError
                end))
  else named_w res = w.
Proof.
  unfold getUniqueObjectName.
  destruct (Header_ r !! "Uid") as [[|s ss]|]; [discriminate| |].
  - destruct (strconv.ParseUint s) as [u [e|]]; cbn [snd].
    + intros [= <-]. cbn [errOccurred named_t objectName named_w].
      repeat split. intros Hs. apply Error_status, Hs.
    + unfold uid.AddUid. destruct (uid.uids t !! u).
      * destruct (uid.recommend fuel (uid.uids t) g) as [[v g1]|];
          [|discriminate].
        intros [= <-]. cbn [errOccurred named_t objectName named_w].
        repeat split. intros Hs. apply Error_status, Hs.
      * intros [= <-]. reflexivity.
  - unfold uid.GenerateAndAdd. destruct (uid.Done ctx).
    + intros [= <-]. cbn [errOccurred named_t objectName named_w].
      repeat split. intros Hs. apply Error_status, Hs.
    + cbn [uid.Uint64].
      destruct (uid.uids t !! _); intros [= <-]; reflexivity.
Qed.

Lemma getUniqueObjectName_outcomes_witness :
  status (Error_ fresh_response (Error (uid.already_used 7 9)) StatusConflict)
  = Some StatusConflict.
Proof.
  assert (Hrun : getUniqueObjectName 1 fresh_response
                   {| Header_ := {[ "Uid" := ["7"] ]}; Query := ∅ |}
                   tracker_7 (uid.draws [9] 0) {| uid.Done := false |} =
                 Some (Returned
                   {| objectName := ""; errOccurred := true;
                      named_w := Error_ fresh_response
                                   (Error (uid.already_used 7 9))
                                   StatusConflict;
                      named_t := tracker_7;
                      named_g :=
                        {| uid.stream := uid.stream (uid.draws [9] 0);
                           uid.drawn := 1 |} |}))
    by (vm_compute; reflexivity).
  pose proof (getUniqueObjectName_outcomes _ _ _ _ _ _ _ Hrun) as P.
  cbn [errOccurred named_t objectName named_w] in P.
  destruct P as (_ & _ & P). specialize (P eq_refl).
  vm_compute in P. vm_compute. exact P.
Defined.

(** X11: an upload that asks for a reserved UID is answered 409 with the
    conflict message, which names a UID that is free and is not the one
    asked for; the tracker stays as it was and the upload stages do not
    run. *)
Theorem uploadHandler_conflict pipeline fuel (w : ResponseWriter) (r : Request)
  (t : uid.UidTracker) (g : uid.Rand) (ctx : uid.Context)
  size sizes s ss u (k : nat) :
  sent w = None ->
  Header_ r !! "File-Size" = Some (size :: sizes) ->
  snd (strconv.ParseInt size) = None ->
  Header_ r !! "Uid" = Some (s :: ss) ->
  strconv.ParseUint s = (u, None) ->
  uid.Contains t u = true ->
  uid.Contains t (uid.stream g (uid.drawn g + k)%nat mod uid.uint64_modulus)
    = false ->
  (k < fuel)%nat ->
  exists w' recommended g',
    uploadHandler pipeline fuel w r t g ctx = Some (Returned (w', t, g')) /\
    status w' = Some StatusConflict /\
    body w' = body w ++
              list_byte_of_string
                ("UID " ++ FormatUint u ++
                 " already used in the system, please retry with " ++
                 FormatUint recommended ++ newline) /\
    uid.Contains t recommended = false /\ recommended <> u.
Proof.
  intros Hfresh Hsize Hparse Huid Hu Hin Hfree Hk.
  unfold uploadHandler, getUniqueObjectName. rewrite Hsize.
  destruct (strconv.ParseInt size) as [fileSize err]. cbn [snd] in Hparse.
  subst err. rewrite Huid, Hu.
  pose proof Hin as Hin'. apply Contains_true in Hin' as [bb Hb].
  apply Contains_false in Hfree.
  unfold uid.AddUid. rewrite Hb.
  destruct (recommend_complete fuel (uid.uids t) g k Hfree Hk)
    as [[v g'] Hrec].
  rewrite Hrec. cbn [errOccurred named_w named_t named_g].
  apply recommend_Some in Hrec as (Hv & _).
  exists (Error_ w (Error (uid.already_used u v)) StatusConflict), v, g'.
  split; [reflexivity|]. split; [apply Error_status, Hfresh|].
  split; [|split].
  - rewrite Error_body. cbn [Error uid.already_used].
    rewrite !string_append_assoc. reflexivity.
  - apply Contains_false, Hv.
  - intros ->. congruence.
Qed.

Lemma uploadHandler_conflict_witness :
  exists w' recommended g',
    uploadHandler (fun w _ _ _ => w) 2 fresh_response
                  {| Header_ := {[ "File-Size" := ["497"]; "Uid" := ["7"] ]};
                     Query := ∅ |}
                  tracker_7 (uid.draws [7; 393] 0) {| uid.Done := false |} =
      Some (Returned (w', tracker_7, g')) /\
    status w' = Some StatusConflict /\
    body w' = body fresh_response ++
              list_byte_of_string
                ("UID " ++ FormatUint 7 ++
                 " already used in the system, please retry with " ++
                 FormatUint recommended ++ newline) /\
    uid.Contains tracker_7 recommended = false /\ recommended <> 7.
Proof.
  apply (uploadHandler_conflict (fun w _ _ _ => w) 2 fresh_response
           {| Header_ := {[ "File-Size" := ["497"]; "Uid" := ["7"] ]};
              Query := ∅ |}
           tracker_7 (uid.draws [7; 393] 0) {| uid.Done := false |}
           "497" [] "7" [] 7 1).
  - reflexivity.
  - vm_compute. reflexivity.
  - vm_compute. reflexivity.
  - vm_compute. reflexivity.
  - vm_compute. reflexivity.
  - vm_compute. reflexivity.
  - vm_compute. reflexivity.
  - lia.
Defined.

(** X12: the name under which [getUniqueObjectName] files an upload for a
    free UID given in the header is the decimal text of that UID, now
    reserved; sent back as the [uid] of a fetch, it parses to the same
    UID, passes the tracker, and is the object name asked of the
    storage. *)
Theorem issued_name_is_fetchable fuel (w : ResponseWriter) (r : Request)
  (t : uid.UidTracker) (g : uid.Rand) (ctx : uid.Context) s ss u
  (minioClient : minio.Client) (c : cryptography.StreamCipher)
  (w2 : ResponseWriter) (r2 : Request) :
  Header_ r !! "Uid" = Some (s :: ss) ->
  strconv.ParseUint s = (u, None) ->
  uid.Contains t u = false ->
  Get (Query r2) "uid" = FormatUint u ->
  exists t',
    getUniqueObjectName fuel w r t g ctx =
      Some (Returned {| objectName := FormatUint u; errOccurred := false;
                        named_w := w; named_t := t'; named_g := g |}) /\
    uid.Contains t' u = true /\
    strconv.ParseUint (FormatUint u) = (u, None) /\
    forall w' calls,
      fetchAndDecryptHandler minioClient c t' w2 r2 = Returned (w', calls) ->
      calls = [(BUCKET_NAME, FormatUint u)].
Proof.
  intros Huid Hu Hfree Hquery.
  pose proof (ParseUint_FormatUint u (ParseUint_range s u Hu)) as Hback.
  apply Contains_false in Hfree.
  exists {| uid.uids := <[u := true]> (uid.uids t) |}.
  assert (Hin : uid.Contains {| uid.uids := <[u := true]> (uid.uids t) |} u
                = true).
  { apply Contains_true. cbn [uid.uids]. rewrite lookup_insert_eq. eauto. }
  split; [|split; [exact Hin|split; [exact Hback|]]].
  - unfold getUniqueObjectName, uid.AddUid. rewrite Huid, Hu, Hfree.
    reflexivity.
  - apply (fetch_reaches_storage minioClient c _ w2 r2 _ u Hquery Hback Hin).
Qed.

Lemma issued_name_is_fetchable_witness :
  exists t',
    getUniqueObjectName 0 fresh_response
      {| Header_ := {[ "Uid" := ["0393"] ]}; Query := ∅ |}
      tracker_7 (uid.draws [] 0) {| uid.Done := false |} =
      Some (Returned {| objectName := FormatUint 393; errOccurred := false;
                        named_w := fresh_response; named_t := t';
                        named_g := uid.draws [] 0 |}) /\
    uid.Contains t' 393 = true /\
    strconv.ParseUint (FormatUint 393) = (393, None) /\
    forall w' calls,
      fetchAndDecryptHandler client_stored test_cipher t' fresh_response
        {| Header_ := ∅; Query := {[ "uid" := ["393"] ]} |} =
        Returned (w', calls) ->
      calls = [(BUCKET_NAME, FormatUint 393)].
Proof.
  apply (issued_name_is_fetchable 0 fresh_response
           {| Header_ := {[ "Uid" := ["0393"] ]}; Query := ∅ |}
           tracker_7 (uid.draws [] 0) {| uid.Done := false |} "0393" [] 393
           client_stored test_cipher fresh_response
           {| Header_ := ∅; Query := {[ "uid" := ["393"] ]} |}).
  - vm_compute. reflexivity.
  - vm_compute. reflexivity.
  - vm_compute. reflexivity.
  - vm_compute. reflexivity.
Defined.

(** X13: the fetch handler checks the tracker with the parsed number but
    asks the storage for the query string as it came: a [uid] with a zero
    in front passes for the UID of the rest, and the object requested is
    named with the zero. *)
Theorem fetch_leading_zero (minioClient : minio.Client)
  (c : cryptography.StreamCipher) (t : uid.UidTracker) (w : ResponseWriter)
  (r : Request) s u :
  Get (Query r) "uid" = String "0" s ->
  strconv.ParseUint s = (u, None) ->
  uid.Contains t u = true ->
  strconv.ParseUint (String "0" s) = (u, None) /\
  forall w' calls,
    fetchAndDecryptHandler minioClient c t w r = Returned (w', calls) ->
    calls = [(BUCKET_NAME, String "0" s)].
Proof.
  intros Hquery Hparse Hin.
  pose proof (ParseUint_leading_zero s u Hparse) as Hzero.
  split; [exact Hzero|].
  apply (fetch_reaches_storage minioClient c t w r _ u Hquery Hzero Hin).
Qed.

Lemma fetch_leading_zero_witness :
  strconv.ParseUint "07" = (7, None) /\
  forall w' calls,
    fetchAndDecryptHandler client_stored test_cipher tracker_7 fresh_response
      {| Header_ := ∅; Query := {[ "uid" := ["07"] ]} |} =
      Returned (w', calls) ->
    calls = [(BUCKET_NAME, "07")].
Proof.
  apply (fetch_leading_zero client_stored test_cipher tracker_7 fresh_response
           {| Header_ := ∅; Query := {[ "uid" := ["07"] ]} |} "7" 7).
  - vm_compute. reflexivity.
  - vm_compute. reflexivity.
  - vm_compute. reflexivity.
Defined.

(** The fetch handler on an object whose content is an IV and data. *)
Lemma fetch_decrypts_object (minioClient : minio.Client)
  (c : cryptography.StreamCipher) blk (t : uid.UidTracker)
  (w : ResponseWriter) (r : Request) uidStr u object info filename
  (iv data : bytes) :
  sent w = None ->
  Get (Query r) "uid" = uidStr ->
  strconv.ParseUint uidStr = (u, None) ->
  uid.Contains t u = true ->
  minio.GetObject minioClient BUCKET_NAME uidStr = inl object ->
  minio.Stat object = inl info ->
  minio.UserMetadata info !! "Filename" = Some filename ->
  cryptography.block c = Some blk -> BlockSize blk = aes.BlockSize ->
  concat (chunks (minio.content object)) = iv ++ data ->
  length iv = aes.BlockSize ->
  final (minio.content object) = EOF ->
  exists w',
    fetchAndDecryptHandler minioClient c t w r =
      Returned (w', [(BUCKET_NAME, uidStr)]) /\
    status w' = Some StatusOK /\
    sent_header w' = Some (download_header (header w) filename) /\
    body w' = body w ++ ctr_xor blk iv data ++
              list_byte_of_string
                ("File " ++ uidStr ++
                 " streamed and decrypted successfully." ++ newline).
Proof.
  intros Hfresh Hget Hparse Hin Hobj Hstat Hname Hblk Hbs Hcat Hlen Hfin.
  unfold fetchAndDecryptHandler. rewrite Hget.
  destruct (String.eqb_spec uidStr "") as [->|_]; [discriminate Hparse|].
  rewrite Hparse, Hin, Hobj, Hstat, Hname, Hfresh. cbn [negb].
  fold (download_header (header w) filename).
  set (w1 := {| header := download_header (header w) filename;
                sent := None; body := body w |}).
  assert (Hw1 : streaming (download_header (header w) filename) w1)
    by (split; [reflexivity | left; reflexivity]).
  destruct (DecryptStream_appends body ResponseWriter_appends c blk
              (minio.content object) iv data w1 Hblk Hbs Hcat Hlen)
    as (w2 & Hrun & Hbody).
  rewrite Hfin in Hrun. cbn [final_error] in Hrun.
  pose proof (DecryptStream_streaming _ _ _ _ _ _ Hw1 Hrun) as Hw2.
  rewrite Hrun. eexists. split; [reflexivity|].
  unfold status, sent_header. rewrite (Fprint_streaming _ w2 _ Hw2).
  split; [reflexivity|]. split; [reflexivity|].
  unfold Fprint. rewrite (proj2 (ResponseWriter_appends _ _)), Hbody.
  rewrite <- app_assoc. reflexivity.
Qed.

(** X14: a fetch that finds its object, with a [Filename] and at least
    16 bytes of content that ends with [EOF], answers 200 with the download
    header; its body is the decryption of the content after the first 16
    bytes followed by the line
    [File <uid> streamed and decrypted successfully.]: the handler's
    closing message is part of the download. *)
Theorem fetchAndDecryptHandler_body (minioClient : minio.Client)
  (c : cryptography.StreamCipher) blk (t : uid.UidTracker)
  (w : ResponseWriter) (r : Request) uidStr u object info filename :
  sent w = None ->
  Get (Query r) "uid" = uidStr ->
  strconv.ParseUint uidStr = (u, None) ->
  uid.Contains t u = true ->
  minio.GetObject minioClient BUCKET_NAME uidStr = inl object ->
  minio.Stat object = inl info ->
  minio.UserMetadata info !! "Filename" = Some filename ->
  cryptography.block c = Some blk -> BlockSize blk = aes.BlockSize ->
  (aes.BlockSize <= length (concat (chunks (minio.content object))))%nat ->
  final (minio.content object) = EOF ->
  exists w',
    fetchAndDecryptHandler minioClient c t w r =
      Returned (w', [(BUCKET_NAME, uidStr)]) /\
    status w' = Some StatusOK /\
    sent_header w' = Some (download_header (header w) filename) /\
    body w' =
      body w ++
      ctr_xor blk
        (take aes.BlockSize (concat (chunks (minio.content object))))
        (drop aes.BlockSize (concat (chunks (minio.content object)))) ++
      list_byte_of_string
        ("File " ++ uidStr ++ " streamed and decrypted successfully." ++
         newline).
Proof.
  intros Hfresh Hget Hparse Hin Hobj Hstat Hname Hblk Hbs Hlong Hfin.
  apply (fetch_decrypts_object minioClient c blk t w r uidStr u object info
           filename); try assumption.
  - symmetry. apply take_drop.
  - rewrite length_take. lia.
Qed.

Lemma fetchAndDecryptHandler_body_witness :
  exists w',
    fetchAndDecryptHandler client_stored test_cipher tracker_7 fresh_response
                           fetch_7 = Returned (w', [(BUCKET_NAME, "7")]) /\
    status w' = Some StatusOK /\
    sent_header w' = Some (download_header (header fresh_response) "report.txt") /\
    body w' =
      body fresh_response ++
      ctr_xor test_block
        (take aes.BlockSize (concat [repeat x01 10; repeat x02 9]))
        (drop aes.BlockSize (concat [repeat x01 10; repeat x02 9])) ++
      list_byte_of_string
        ("File " ++ "7" ++ " streamed and decrypted successfully." ++ newline).
Proof.
  apply (fetchAndDecryptHandler_body client_stored test_cipher test_block
           tracker_7 fresh_response fetch_7 "7" 7
           {| minio.Stat := inl report_txt;
              minio.content :=
                {| chunks := [repeat x01 10; repeat x02 9]; final := EOF |} |}
           report_txt "report.txt"); try reflexivity.
  vm_compute. lia.
Defined.

End Handler_more.

(** ** Upload, restart and fetch together *)

Section End_to_end.
Import io cipher http main api.




End End_to_end.

(** ** Start-up *)

Section Startup.
Import api.

Lemma listed_ids (listing : list ListedObject) : forall ids x,
  x ∈ fold_left
        (fun ids obj =>
           let (newUid, err) := strconv.ParseUint (Key obj) in
           match err with
           | None => ids ++ [newUid]
           | Some _ => ids
           end)
        listing ids <->
  x ∈ ids \/ exists obj, obj ∈ listing /\ strconv.ParseUint (Key obj) = (x, None).
Proof.
  induction listing as [|obj listing IH]; intros ids x; cbn [fold_left].
  - split; [tauto|]. intros [Hx|(obj & Hobj & _)]; [exact Hx|].
    apply elem_of_nil in Hobj. contradiction.
  - rewrite IH. destruct (strconv.ParseUint (Key obj)) as [v [e|]] eqn:E.
    + split.
      * intros [Hx|(o & Ho & Hp)]; [tauto|]. right. exists o. split; [|exact Hp].
        right. exact Ho.
      * intros [Hx|(o & Ho & Hp)]; [tauto|].
        apply elem_of_cons in Ho as [->|Ho]; [congruence|]. right. eauto.
    + rewrite elem_of_app, list_elem_of_singleton. split.
      * intros [[Hx| ->]|(o & Ho & Hp)].
        -- tauto.
        -- right. exists obj. split; [left|exact E].
        -- right. exists o. split; [right; exact Ho | exact Hp].
      * intros [Hx|(o & Ho & Hp)]; [tauto|].
        apply elem_of_cons in Ho as [->|Ho].
        -- left. right. congruence.
        -- right. eauto.
Qed.

(** X16: [fetchUidsFromMinio] never reports an error, and the tracker it
    leaves holds exactly the UIDs that some listed key parses to, whatever
    it held before: keys that are no decimal [uint64] are skipped, and every
    object stored under the decimal text of a 64-bit UID is found again. *)
Theorem fetchUidsFromMinio_tracks_numeric_keys (tracker : uid.UidTracker)
  (listing : list ListedObject) :
  snd (fetchUidsFromMinio tracker listing) = None /\
  (forall x,
     uid.Contains (fst (fetchUidsFromMinio tracker listing)) x = true <->
     exists obj, obj ∈ listing /\ strconv.ParseUint (Key obj) = (x, None)) /\
  (forall obj u,
     obj ∈ listing -> Key obj = FormatUint u -> 0 <= u < uid.uint64_modulus ->
     uid.Contains (fst (fetchUidsFromMinio tracker listing)) u = true).
Proof.
  assert (Hmem : forall x,
            uid.Contains (fst (fetchUidsFromMinio tracker listing)) x = true <->
            exists obj, obj ∈ listing /\
                        strconv.ParseUint (Key obj) = (x, None)).
  { intros x. unfold fetchUidsFromMinio. cbn [fst].
    rewrite Contains_true. unfold uid.Init. cbn [uid.uids].
    rewrite Init_lookup, lookup_empty, listed_ids. split.
    - intros [[Hx|Hx]|[bb Hb]]; [|exact Hx|discriminate].
      apply elem_of_nil in Hx. contradiction.
    - intros Hx. left. right. exact Hx. }
  split; [reflexivity|]. split; [exact Hmem|].
  intros obj u Hobj Hkey Hu. apply Hmem. exists obj. split; [exact Hobj|].
  rewrite Hkey. apply ParseUint_FormatUint, Hu.
Qed.

Lemma fetchUidsFromMinio_tracks_numeric_keys_witness :
  uid.Contains
    (fst (fetchUidsFromMinio tracker_7
            [ {| Key := "393"; Err := None |};
              {| Key := "notes.txt"; Err := None |};
              {| Key := ""; Err := Some ErrClosedPipe |} ])) 393 = true.
Proof.
  apply (proj2 (proj2 (fetchUidsFromMinio_tracks_numeric_keys tracker_7
           [ {| Key := "393"; Err := None |};
             {| Key := "notes.txt"; Err := None |};
             {| Key := ""; Err := Some ErrClosedPipe |} ]))
           {| Key := "393"; Err := None |} 393).
  - left.
  - reflexivity.
  - unfold uid.uint64_modulus. lia.
Defined.

(** X17: for an upload of fewer than 2^53 bytes, [getMaxNbrRunSeconds]
    is a whole number of seconds: ten, plus the bytes divided by 2^20 and
    rounded up; so at 1 MiB per second the upload fits into the time
    beyond the ten seconds of safety, and the [int64] product does not
    overflow. *)
Theorem getMaxNbrRunSeconds_whole_seconds (nbrUploadedBytes : Z) :
  0 <= nbrUploadedBytes < 2 ^ 53 ->
  exists seconds,
    getMaxNbrRunSeconds nbrUploadedBytes = seconds * 10 ^ 9 /\
    10 <= seconds /\
    (seconds - 11) * 2 ^ 20 < nbrUploadedBytes <= (seconds - 10) * 2 ^ 20 /\
    seconds * 10 ^ 9 < 2 ^ 63.
Proof.
  intros Hn. unfold getMaxNbrRunSeconds.
  assert (Hexact : float64_of_int64 nbrUploadedBytes = nbrUploadedBytes).
  { unfold float64_of_int64. rewrite Z.abs_eq by lia.
    destruct (Z.leb_spec (Z.log2 nbrUploadedBytes + 1 - 53) 0) as [_|Hbig];
      [reflexivity|].
    destruct (Z.eq_dec nbrUploadedBytes 0) as [->|Hne]; [simpl in Hbig; lia|].
    assert (Z.log2 nbrUploadedBytes < 53) by (apply Z.log2_lt_pow2; lia).
    lia. }
  rewrite Hexact.
  change (1024 * 1024 * 1) with (2 ^ 20).
  set (ceil := - (- nbrUploadedBytes / 2 ^ 20)).
  assert (Hceil : (ceil - 1) * 2 ^ 20 < nbrUploadedBytes <= ceil * 2 ^ 20).
  { subst ceil. pose proof (Z.div_mod (- nbrUploadedBytes) (2 ^ 20) ltac:(lia)).
    pose proof (Z.mod_pos_bound (- nbrUploadedBytes) (2 ^ 20) ltac:(lia)).
    lia. }
  assert (Hrange : 0 <= ceil <= 2 ^ 33).
  { change (2 ^ 53) with (2 ^ 33 * 2 ^ 20) in Hn.
    assert (0 < 2 ^ 20) by lia. nia. }
  exists (10 + ceil).
  assert (Hsmall : (10 + ceil) * 10 ^ 9 < 2 ^ 63).
  { change (2 ^ 33) with 8589934592 in Hrange.
    change (10 ^ 9) with 1000000000.
    change (2 ^ 63) with 9223372036854775808. lia. }
  split; [|split; [lia|split; [|exact Hsmall]]].
  - unfold wrap_int64. rewrite Z.mod_small; [lia|].
    change (10 ^ 9) with 1000000000 in *.
    change (2 ^ 63) with 9223372036854775808 in *.
    change (2 ^ 64) with 18446744073709551616. lia.
  - replace (10 + ceil - 11) with (ceil - 1) by lia.
    replace (10 + ceil - 10) with ceil by lia. exact Hceil.
Qed.

Lemma getMaxNbrRunSeconds_whole_seconds_witness :
  exists seconds,
    getMaxNbrRunSeconds (3200000 + 16) = seconds * 10 ^ 9 /\
    10 <= seconds /\
    (seconds - 11) * 2 ^ 20 < 3200000 + 16 <= (seconds - 10) * 2 ^ 20 /\
    seconds * 10 ^ 9 < 2 ^ 63.
Proof.
  apply (getMaxNbrRunSeconds_whole_seconds (3200000 + 16)). lia.
Defined.

End Startup.
